(** * Task-list page: reducer and local-storage persistence

    A shallow embedding of [my-app/app/page.tsx]: the [Todo] entity, the
    [Action] union, [todoReducer], and the two effects of [TodoPage] that
    hydrate the list from [localStorage] and write it back.

    JavaScript strings are sequences of UTF-16 code units, modelled as
    [list N].  [localStorage] is a finite map from strings to strings. *)

From Stdlib Require Import NArith List Lia String Ascii.
From stdpp Require Import base list gmap.

Local Open Scope N_scope.
Set Warnings "-register-all".

(** ** JavaScript strings *)

Definition JsString := list N.

(** A source-code string literal as code units (ASCII literals only). *)
Definition js (s : string) : JsString :=
  map N_of_ascii (list_ascii_of_string s).

(** ** Data model (page.tsx, lines 5-17) *)

Record Todo := mkTodo {
  id : JsString;
  text : JsString;
  completed : bool;
  createdAt : JsString;
}.

Inductive Action :=
| SET_TODOS (payload : list Todo)
| ADD_TODO (payload : JsString)
| TOGGLE_TODO (payload : JsString)
| DELETE_TODO (payload : JsString)
| UPDATE_TODO (payload_id payload_text : JsString).

(** The two ambient reads of the ADD_TODO branch: what
    [crypto.randomUUID()] and [new Date().toISOString()] return during one
    call of the reducer. *)
Record Env := mkEnv {
  randomUUID : JsString;
  toISOString : JsString;
}.

(** [{ ...t, completed: c }] *)
Definition with_completed (t : Todo) (c : bool) : Todo :=
  {| id := id t; text := text t; completed := c; createdAt := createdAt t |}.

(** [{ ...t, text: s }] *)
Definition with_text (t : Todo) (s : JsString) : Todo :=
  {| id := id t; text := s; completed := completed t; createdAt := createdAt t |}.

(** ** The reducer (page.tsx, lines 19-39) *)

Definition todoReducer (env : Env) (state : list Todo) (action : Action)
  : list Todo :=
  match action with
  | SET_TODOS payload => payload
  | ADD_TODO payload =>
      state ++ [ {| id := randomUUID env;
                    text := payload;
                    completed := false;
                    createdAt := toISOString env |} ]
  | TOGGLE_TODO payload =>
      (fun t => if bool_decide (id t = payload)
                then with_completed t (negb (completed t)) else t) <$> state
  | DELETE_TODO payload =>
      filter (fun t => id t ≠ payload) state
  | UPDATE_TODO payload_id payload_text =>
      (fun t => if bool_decide (id t = payload_id)
                then with_text t payload_text else t) <$> state
  end.

(** The ids of a list, in order. *)
Definition ids (l : list Todo) : list JsString := id <$> l.

(** A dispatch as the reducer sees it: the action and the ambient values
    read while reducing it. *)
Definition Dispatch := (Env * Action)%type.

(** [useReducer]: the state after a sequence of dispatches. *)
Definition run (state : list Todo) (ds : list Dispatch) : list Todo :=
  foldl (fun s d => todoReducer (fst d) s (snd d)) state ds.

(** A dispatch that cannot introduce a second copy of an id: a replacement
    list without repeated ids, or an addition whose generated id is not in
    the list yet.  The other three actions create no id. *)
Definition id_safe (state : list Todo) (d : Dispatch) : Prop :=
  match snd d with
  | SET_TODOS payload => NoDup (ids payload)
  | ADD_TODO _ => randomUUID (fst d) ∉ ids state
  | _ => True
  end.

(** Every dispatch of a run is [id_safe] for the state it is applied to. *)
Fixpoint id_safe_run (state : list Todo) (ds : list Dispatch) : Prop :=
  match ds with
  | [] => True
  | d :: ds' =>
      id_safe state d ∧ id_safe_run (todoReducer (fst d) state (snd d)) ds'
  end.

(** ** JSON text (the built-ins [JSON.stringify] and [JSON.parse])

    Code units used below: 34 is the double quote, 92 the backslash,
    44 the comma, 58 the colon, 91 and 93 the square brackets, 123 and 125
    the braces. *)

(** What [JSON.parse] can return.  A number is kept as its source text
    (the double it denotes is a function of that text); the members of an
    object are listed in creation order. *)
Inductive JsValue :=
| JNull
| JBool (b : bool)
| JNumber (lexeme : JsString)
| JString (s : JsString)
| JArray (items : list JsValue)
| JObject (members : list (JsString * JsValue)).

(** *** Serialisation *)

(** One lowercase hexadecimal digit. *)
Definition hex_digit (d : N) : N := if d <? 10 then 48 + d else 87 + d.

(** [UnicodeEscape]: backslash, u and four hexadecimal digits. *)
Definition UnicodeEscape (c : N) : JsString :=
  [92; 117; hex_digit (c / 4096 mod 16); hex_digit (c / 256 mod 16);
   hex_digit (c / 16 mod 16); hex_digit (c mod 16)].

Definition is_leading_surrogate (c : N) : bool := (55296 <=? c) && (c <=? 56319).
Definition is_trailing_surrogate (c : N) : bool := (56320 <=? c) && (c <=? 57343).

(** One code unit that is not a surrogate, as [QuoteJSONString] writes it. *)
Definition quote_unit (c : N) : JsString :=
  if c =? 8 then [92; 98]
  else if c =? 9 then [92; 116]
  else if c =? 10 then [92; 110]
  else if c =? 12 then [92; 102]
  else if c =? 13 then [92; 114]
  else if c =? 34 then [92; 34]
  else if c =? 92 then [92; 92]
  else if c <? 32 then UnicodeEscape c
  else [c].

(** The text between the quotes: a surrogate pair is copied, a lone
    surrogate is escaped. *)
Fixpoint quote_body (s : JsString) : JsString :=
  match s with
  | [] => []
  | c :: r =>
      if is_leading_surrogate c then
        match r with
        | d :: r' =>
            if is_trailing_surrogate d then c :: d :: quote_body r'
            else UnicodeEscape c ++ quote_body r
        | [] => UnicodeEscape c
        end
      else if is_trailing_surrogate c then UnicodeEscape c ++ quote_body r
      else quote_unit c ++ quote_body r
  end.

Definition QuoteJSONString (s : JsString) : JsString :=
  [34] ++ quote_body s ++ [34].

Definition stringify_bool (b : bool) : JsString :=
  if b then js "true" else js "false".

(** [JSON.stringify] of one task object: its four own properties in the
    order the object literal of the ADD_TODO branch creates them. *)
Definition stringify_Todo (t : Todo) : JsString :=
  [123]
  ++ QuoteJSONString (js "id") ++ [58] ++ QuoteJSONString (id t) ++ [44]
  ++ QuoteJSONString (js "text") ++ [58] ++ QuoteJSONString (text t) ++ [44]
  ++ QuoteJSONString (js "completed") ++ [58] ++ stringify_bool (completed t) ++ [44]
  ++ QuoteJSONString (js "createdAt") ++ [58] ++ QuoteJSONString (createdAt t)
  ++ [125].

(** The elements of an array, separated by commas. *)
Fixpoint stringify_elements (l : list Todo) : JsString :=
  match l with
  | [] => []
  | [t] => stringify_Todo t
  | t :: r => stringify_Todo t ++ [44] ++ stringify_elements r
  end.

(** [JSON.stringify(todos)] for [todos : Todo[]]. *)
Definition JSON_stringify (todos : list Todo) : JsString :=
  [91] ++ stringify_elements todos ++ [93].

(** *** Parsing *)

Definition is_ws (c : N) : bool :=
  (c =? 32) || (c =? 9) || (c =? 10) || (c =? 13).

Fixpoint skip_ws (s : JsString) : JsString :=
  match s with
  | c :: r => if is_ws c then skip_ws r else s
  | [] => []
  end.

Definition hex_val (h : N) : option N :=
  if (48 <=? h) && (h <=? 57) then Some (h - 48)
  else if (97 <=? h) && (h <=? 102) then Some (h - 87)
  else if (65 <=? h) && (h <=? 70) then Some (h - 55)
  else None.

Definition hex4 (h3 h2 h1 h0 : N) : option N :=
  match hex_val h3, hex_val h2, hex_val h1, hex_val h0 with
  | Some a, Some b, Some c, Some d => Some (((a * 16 + b) * 16 + c) * 16 + d)
  | _, _, _, _ => None
  end.

(** The character a single-letter escape stands for. *)
Definition unescape (e : N) : option N :=
  if e =? 34 then Some 34
  else if e =? 92 then Some 92
  else if e =? 47 then Some 47
  else if e =? 98 then Some 8
  else if e =? 102 then Some 12
  else if e =? 110 then Some 10
  else if e =? 114 then Some 13
  else if e =? 116 then Some 9
  else None.

(** The characters of a string after its opening quote, up to and
    including the closing quote.  [None] is a SyntaxError. *)
Fixpoint parse_chars (s : JsString) : option (JsString * JsString) :=
  match s with
  | [] => None
  | c :: r =>
      if c =? 34 then Some ([], r)
      else if c =? 92 then
        match r with
        | [] => None
        | e :: r1 =>
            if e =? 117 then
              match r1 with
              | h3 :: h2 :: h1 :: h0 :: r2 =>
                  match hex4 h3 h2 h1 h0 with
                  | Some u =>
                      match parse_chars r2 with
                      | Some (str, rest) => Some (u :: str, rest)
                      | None => None
                      end
                  | None => None
                  end
              | _ => None
              end
            else
              match unescape e with
              | Some u =>
                  match parse_chars r1 with
                  | Some (str, rest) => Some (u :: str, rest)
                  | None => None
                  end
              | None => None
              end
        end
      else if c <? 32 then None
      else
        match parse_chars r with
        | Some (str, rest) => Some (c :: str, rest)
        | None => None
        end
  end.

(** What [parse_chars] returns after reading one more character [c]. *)
Definition read_more (c : N) (k : option (JsString * JsString))
  : option (JsString * JsString) :=
  match k with
  | Some (str, rest) => Some (c :: str, rest)
  | None => None
  end.

Definition is_digit (c : N) : bool := (48 <=? c) && (c <=? 57).

(** The longest prefix of digits, and what follows it. *)
Fixpoint span_digits (s : JsString) : JsString * JsString :=
  match s with
  | c :: r =>
      if is_digit c then let '(ds, rest) := span_digits r in (c :: ds, rest)
      else ([], s)
  | [] => ([], [])
  end.

(** An optional part of a number: [None] is a SyntaxError, [Some ([], s)]
    means the part is absent. *)
Definition parse_fraction (s : JsString) : option (JsString * JsString) :=
  match s with
  | c :: r =>
      if c =? 46 then
        match span_digits r with
        | ([], _) => None
        | (ds, rest) => Some (c :: ds, rest)
        end
      else Some ([], s)
  | [] => Some ([], [])
  end.

Definition parse_exponent (s : JsString) : option (JsString * JsString) :=
  match s with
  | c :: r =>
      if (c =? 101) || (c =? 69) then
        let '(sign, r1) :=
          match r with
          | g :: r' => if (g =? 43) || (g =? 45) then ([g], r') else ([], r)
          | [] => ([], r)
          end in
        match span_digits r1 with
        | ([], _) => None
        | (ds, rest) => Some (c :: sign ++ ds, rest)
        end
      else Some ([], s)
  | [] => Some ([], [])
  end.

Definition parse_int (s : JsString) : option (JsString * JsString) :=
  match s with
  | c :: r =>
      if c =? 48 then Some ([c], r)
      else if is_digit c then
        let '(ds, rest) := span_digits r in Some (c :: ds, rest)
      else None
  | [] => None
  end.

(** A JSON number: optional minus, integer part, optional fraction,
    optional exponent. *)
Definition parse_number (s : JsString) : option (JsString * JsString) :=
  let '(sign, s0) :=
    match s with
    | c :: r => if c =? 45 then ([c], r) else ([], s)
    | [] => ([], s)
    end in
  match parse_int s0 with
  | None => None
  | Some (i, s1) =>
      match parse_fraction s1 with
      | None => None
      | Some (f, s2) =>
          match parse_exponent s2 with
          | None => None
          | Some (e, s3) => Some (sign ++ i ++ f ++ e, s3)
          end
      end
  end.

(** [strip_prefix p s] removes the literal [p] from the front of [s]. *)
Fixpoint strip_prefix (p s : JsString) : option JsString :=
  match p with
  | [] => Some s
  | a :: p' =>
      match s with
      | c :: r => if c =? a then strip_prefix p' r else None
      | [] => None
      end
  end.

Definition parse_literal (lit : JsString) (v : JsValue) (s : JsString)
  : option (JsValue * JsString) :=
  match strip_prefix lit s with
  | Some rest => Some (v, rest)
  | None => None
  end.

Fixpoint string_eqb (a b : JsString) : bool :=
  match a, b with
  | [], [] => true
  | x :: a', y :: b' => (x =? y) && string_eqb a' b'
  | _, _ => false
  end.

(** [CreateDataProperty]: a key already present keeps its place and takes
    the new value; a new key is added last. *)
Fixpoint define_property (k : JsString) (v : JsValue)
  (ms : list (JsString * JsValue)) : list (JsString * JsValue) :=
  match ms with
  | [] => [(k, v)]
  | (k', v') :: ms' =>
      if string_eqb k' k then (k', v) :: ms'
      else (k', v') :: define_property k v ms'
  end.

Definition make_object (parsed : list (JsString * JsValue)) : JsValue :=
  JObject (foldl (fun ms kv => define_property (fst kv) (snd kv) ms) [] parsed).

(** Recursive descent over the text.  [fuel] bounds the number of nested
    calls; [None] is a SyntaxError (or no fuel left). *)
Fixpoint parse_value (fuel : nat) (s : JsString) : option (JsValue * JsString) :=
  match fuel with
  | O => None
  | S fuel' =>
      match skip_ws s with
      | [] => None
      | c :: r =>
          if c =? 123 then
            match skip_ws r with
            | c1 :: r1 =>
                if c1 =? 125 then Some (JObject [], r1)
                else
                  match parse_members fuel' r with
                  | Some (ms, rest) => Some (make_object ms, rest)
                  | None => None
                  end
            | [] => None
            end
          else if c =? 91 then
            match skip_ws r with
            | c1 :: r1 =>
                if c1 =? 93 then Some (JArray [], r1)
                else
                  match parse_elements fuel' r with
                  | Some (vs, rest) => Some (JArray vs, rest)
                  | None => None
                  end
            | [] => None
            end
          else if c =? 34 then
            match parse_chars r with
            | Some (str, rest) => Some (JString str, rest)
            | None => None
            end
          else if c =? 116 then parse_literal (js "true") (JBool true) (c :: r)
          else if c =? 102 then parse_literal (js "false") (JBool false) (c :: r)
          else if c =? 110 then parse_literal (js "null") JNull (c :: r)
          else
            match parse_number (c :: r) with
            | Some (lexeme, rest) => Some (JNumber lexeme, rest)
            | None => None
            end
      end
  end
with parse_elements (fuel : nat) (s : JsString)
  : option (list JsValue * JsString) :=
  match fuel with
  | O => None
  | S fuel' =>
      match parse_value fuel' s with
      | None => None
      | Some (v, r) =>
          match skip_ws r with
          | c :: r1 =>
              if c =? 44 then
                match parse_elements fuel' r1 with
                | Some (vs, rest) => Some (v :: vs, rest)
                | None => None
                end
              else if c =? 93 then Some ([v], r1)
              else None
          | [] => None
          end
      end
  end
with parse_members (fuel : nat) (s : JsString)
  : option (list (JsString * JsValue) * JsString) :=
  match fuel with
  | O => None
  | S fuel' =>
      match skip_ws s with
      | c :: r =>
          if c =? 34 then
            match parse_chars r with
            | None => None
            | Some (k, r1) =>
                match skip_ws r1 with
                | c1 :: r2 =>
                    if c1 =? 58 then
                      match parse_value fuel' r2 with
                      | None => None
                      | Some (v, r3) =>
                          match skip_ws r3 with
                          | c2 :: r4 =>
                              if c2 =? 44 then
                                match parse_members fuel' r4 with
                                | Some (ms, rest) => Some ((k, v) :: ms, rest)
                                | None => None
                                end
                              else if c2 =? 125 then Some ([(k, v)], r4)
                              else None
                          | [] => None
                          end
                      end
                    else None
                | [] => None
                end
            end
          else None
      | [] => None
      end
  end.

(** [p], run with fuel [f], has not been cut short: a result it gives
    leaves less text than it was given, and is the result for every fuel
    of at least twice the number of characters consumed. *)
Definition fuel_ok {A : Type} (p : nat → JsString → option (A * JsString))
  (f : nat) : Prop :=
  ∀ s x r, p f s = Some (x, r) →
    (length r < length s)%nat
    ∧ ∀ g, (2 * (length s - length r) ≤ g)%nat → p g s = Some (x, r).

(** [JSON.parse(text)]: one value, then nothing but white space.  Every
    nested call consumes a character within two levels, so twice the
    length of the text is fuel enough ([JSON_parse_Some_iff] below). *)
Definition JSON_parse (text : JsString) : option JsValue :=
  match parse_value (S (2 * length text)) text with
  | Some (v, rest) =>
      match skip_ws rest with
      | [] => Some v
      | _ :: _ => None
      end
  | None => None
  end.

(** ** Tasks as run-time values *)

(** The object a [Todo] is at run time. *)
Definition Todo_to_js (t : Todo) : JsValue :=
  JObject [ (js "id", JString (id t));
            (js "text", JString (text t));
            (js "completed", JBool (completed t));
            (js "createdAt", JString (createdAt t)) ].

Definition todos_to_js (l : list Todo) : JsValue :=
  JArray (Todo_to_js <$> l).

(** Property lookup on an object. *)
Fixpoint get_property (k : JsString) (ms : list (JsString * JsValue))
  : option JsValue :=
  match ms with
  | [] => None
  | (k', v) :: ms' => if string_eqb k' k then Some v else get_property k ms'
  end.

(** A run-time value read at type [Todo] (page.tsx, lines 5-10): an object
    with string [id], [text], [createdAt] and boolean [completed]. *)
Definition Todo_of_js (v : JsValue) : option Todo :=
  match v with
  | JObject ms =>
      match get_property (js "id") ms, get_property (js "text") ms,
            get_property (js "completed") ms, get_property (js "createdAt") ms with
      | Some (JString i), Some (JString t), Some (JBool c), Some (JString d) =>
          Some {| id := i; text := t; completed := c; createdAt := d |}
      | _, _, _, _ => None
      end
  | _ => None
  end.

(** A run-time value read at type [Todo[]]: [None] when it is not a
    sequence of tasks. *)
Definition todos_of_js (v : JsValue) : option (list Todo) :=
  match v with
  | JArray items => mapM Todo_of_js items
  | _ => None
  end.

(** ** The page and its storage (page.tsx, lines 41-68) *)

(** [localStorage]: string keys, string values. *)
Abbreviation Storage := (gmap JsString JsString).

Definition getItem (ls : Storage) (key : JsString) : option JsString :=
  ls !! key.

Definition setItem (ls : Storage) (key value : JsString) : Storage :=
  <[key := value]> ls.

(** What the page holds after the mount effect.  [JSON.parse] returns an
    unchecked value and SET_TODOS installs its payload as it is, so the
    list state is a [JsValue]. *)
Record Hydrated := mkHydrated {
  todos : JsValue;
  isMounted : bool;
  console_error : list JsString;
}.

(** [if (saved)] on a string. *)
Definition truthy (saved : JsString) : bool :=
  match saved with [] => false | _ :: _ => true end.

(** The first effect, [initApp], run on the initial state
    [useReducer(todoReducer, [])]. *)
Definition initApp (ls : Storage) : Hydrated :=
  match getItem ls (js "todos") with
  | Some saved =>
      if truthy saved then
        match JSON_parse saved with
        | Some payload =>
            {| todos := payload; isMounted := true; console_error := [] |}
        | None =>
            {| todos := JArray []; isMounted := true;
               console_error := [js "Failed to load:"] |}
        end
      else {| todos := JArray []; isMounted := true; console_error := [] |}
  | None => {| todos := JArray []; isMounted := true; console_error := [] |}
  end.

(** The second effect: once mounted, write the whole list under the one
    key. *)
Definition saveTodos (mounted : bool) (l : list Todo) (ls : Storage)
  : Storage :=
  if mounted then setItem ls (js "todos") (JSON_stringify l) else ls.




(** ** The page state and its handlers (page.tsx, lines 41-47 and 70-89) *)

(** [String.prototype.trim] removes white space and line terminators:
    TAB, LF, VT, FF, CR, SPACE, NBSP, U+1680, U+2000 to U+200A, the line
    and paragraph separators, U+202F, U+205F, U+3000 and U+FEFF. *)
Definition is_space (c : N) : bool :=
  ((9 <=? c) && (c <=? 13)) || (c =? 32) || (c =? 160) || (c =? 5760)
  || ((8192 <=? c) && (c <=? 8202)) || (c =? 8232) || (c =? 8233)
  || (c =? 8239) || (c =? 8287) || (c =? 12288) || (c =? 65279).

Fixpoint trim_start (s : JsString) : JsString :=
  match s with
  | c :: r => if is_space c then trim_start r else s
  | [] => []
  end.

Fixpoint trim_end (s : JsString) : JsString :=
  match s with
  | [] => []
  | c :: r =>
      match trim_end r with
      | [] => if is_space c then [] else [c]
      | r' => c :: r'
      end
  end.

Definition trim (s : JsString) : JsString := trim_end (trim_start s).

(** The five pieces of state of [TodoPage]. *)
Module Page.
Record t := mk {
  todos : list Todo;
  inputValue : JsString;
  editingId : option JsString;
  editText : JsString;
  isMounted : bool;
}.
End Page.

(** The state of the first render. *)
Definition initial_page : Page.t :=
  {| Page.todos := []; Page.inputValue := []; Page.editingId := None;
     Page.editText := []; Page.isMounted := false |}.

Definition with_todos (p : Page.t) (l : list Todo) : Page.t :=
  {| Page.todos := l; Page.inputValue := Page.inputValue p;
     Page.editingId := Page.editingId p; Page.editText := Page.editText p;
     Page.isMounted := Page.isMounted p |}.

Definition setInputValue (p : Page.t) (v : JsString) : Page.t :=
  {| Page.todos := Page.todos p; Page.inputValue := v;
     Page.editingId := Page.editingId p; Page.editText := Page.editText p;
     Page.isMounted := Page.isMounted p |}.

Definition setEditingId (p : Page.t) (e : option JsString) : Page.t :=
  {| Page.todos := Page.todos p; Page.inputValue := Page.inputValue p;
     Page.editingId := e; Page.editText := Page.editText p;
     Page.isMounted := Page.isMounted p |}.

Definition setEditText (p : Page.t) (v : JsString) : Page.t :=
  {| Page.todos := Page.todos p; Page.inputValue := Page.inputValue p;
     Page.editingId := Page.editingId p; Page.editText := v;
     Page.isMounted := Page.isMounted p |}.

(** A handler changes the local state and may dispatch one action. *)
Definition Handled := (Page.t * option Action)%type.

(** [handleAdd]: nothing happens on blank input; otherwise the trimmed
    input is dispatched and the field is cleared. *)
Definition handleAdd (p : Page.t) : Handled :=
  if truthy (trim (Page.inputValue p))
  then (setInputValue p [], Some (ADD_TODO (trim (Page.inputValue p))))
  else (p, None).

Definition startEditing (todo : Todo) (p : Page.t) : Handled :=
  (setEditText (setEditingId p (Some (id todo))) (text todo), None).

(** [handleUpdate]: [editingId && editText.trim()] guards the dispatch;
    editing ends in either case. *)
Definition handleUpdate (p : Page.t) : Handled :=
  (setEditingId p None,
   match Page.editingId p with
   | Some eid =>
       if truthy eid && truthy (trim (Page.editText p))
       then Some (UPDATE_TODO eid (trim (Page.editText p)))
       else None
   | None => None
   end).

(** [activeCount] *)
Definition activeCount (l : list Todo) : nat :=
  length (filter (fun t => completed t = false) l).

(** What the user can do on the mounted page. *)
Inductive Event :=
| InputChange (value : JsString)
| Submit
| CheckboxChange (todo_id : JsString)
| DeleteClick (todo_id : JsString)
| LabelDoubleClick (todo : Todo)
| EditChange (value : JsString)
| EditCommit.

Definition handle (e : Event) (p : Page.t) : Handled :=
  match e with
  | InputChange value => (setInputValue p value, None)
  | Submit => handleAdd p
  | CheckboxChange todo_id => (p, Some (TOGGLE_TODO todo_id))
  | DeleteClick todo_id => (p, Some (DELETE_TODO todo_id))
  | LabelDoubleClick todo => startEditing todo p
  | EditChange value => (setEditText p value, None)
  | EditCommit => handleUpdate p
  end.

(** One event: the handler runs, a dispatched action is reduced, and the
    save effect runs when the list is a new array, that is, when an action
    was reduced. *)
Definition react (env : Env) (e : Event) (w : Page.t * Storage)
  : Page.t * Storage :=
  let '(p, ls) := w in
  let '(p', dispatched) := handle e p in
  match dispatched with
  | Some a =>
      let p'' := with_todos p' (todoReducer env (Page.todos p') a) in
      (p'', saveTodos (Page.isMounted p'') (Page.todos p'') ls)
  | None => (p', ls)
  end.

(** A sequence of events, each with the ambient values of its moment. *)
Definition session (w : Page.t * Storage) (evs : list (Env * Event))
  : Page.t * Storage :=
  foldl (fun w ev => react (fst ev) (snd ev) w) w evs.

(** Mounting with a stored list that reads as [l]: the save effect of the
    first render sees [isMounted = false] and the initial empty list; after
    [initApp] the page holds [l], is mounted, and the save effect runs
    again. *)
Definition mount (l : list Todo) (ls : Storage) : Page.t * Storage :=
  let ls1 := saveTodos (Page.isMounted initial_page)
               (Page.todos initial_page) ls in
  let p := {| Page.todos := l; Page.inputValue := [];
              Page.editingId := None; Page.editText := [];
              Page.isMounted := true |} in
  (p, saveTodos (Page.isMounted p) (Page.todos p) ls1).

(** A label the page's own checks let through: not empty, and equal to
    its trimmed form. *)
Definition trimmed (s : JsString) : Prop := s ≠ [] ∧ trim s = s.

(** ** Sample data *)

Definition env_a : Env :=
  {| randomUUID := js "a"; toISOString := js "2024-01-01T00:00:00.000Z" |}.

Definition env_b : Env :=
  {| randomUUID := js "b"; toISOString := js "2024-01-02T00:00:00.000Z" |}.

Definition milk : Todo :=
  {| id := js "a"; text := js "Buy milk"; completed := false;
     createdAt := js "2024-01-01T00:00:00.000Z" |}.

Definition dog : Todo :=
  {| id := js "b"; text := js "Walk dog"; completed := false;
     createdAt := js "2024-01-02T00:00:00.000Z" |}.

(** A second task carrying the id of [milk]. *)
Definition milk_again : Todo :=
  {| id := js "a"; text := js "Buy more milk"; completed := true;
     createdAt := js "2024-01-03T00:00:00.000Z" |}.

(** The scenario of the specification: two additions, then a toggle of
    the first task. *)
Definition scenario : list Dispatch :=
  [ (env_a, ADD_TODO (js "Buy milk"));
    (env_b, ADD_TODO (js "Walk dog"));
    (env_b, TOGGLE_TODO (js "a")) ].

(** A run that uses all five actions. *)
Definition busy_run : list Dispatch :=
  [ (env_a, SET_TODOS [dog]);
    (env_a, ADD_TODO (js "Buy milk"));
    (env_b, UPDATE_TODO (js "a") (js "Buy oat milk"));
    (env_b, TOGGLE_TODO (js "b"));
    (env_b, DELETE_TODO (js "b")) ].




Definition storage_with (saved : JsString) : Storage :=
  setItem ∅ (js "todos") saved.

(** A mounted page showing two tasks, with text typed in the add field. *)
Definition typing_page : Page.t :=
  {| Page.todos := [milk; dog]; Page.inputValue := js "  Feed cat ";
     Page.editingId := None; Page.editText := [];
     Page.isMounted := true |}.

(** The same page with nothing but spaces in the add field. *)
Definition blank_page : Page.t :=
  {| Page.todos := [milk; dog]; Page.inputValue := js "   ";
     Page.editingId := None; Page.editText := [];
     Page.isMounted := true |}.

Definition env_c : Env :=
  {| randomUUID := js "c"; toISOString := js "2024-01-04T00:00:00.000Z" |}.

(** A visit to the page showing [milk] and [dog]: one task added, the
    first task completed, the second renamed, the first deleted. *)
Definition visit : list (Env * Event) :=
  [ (env_c, InputChange (js " Feed cat"));
    (env_c, Submit);
    (env_b, CheckboxChange (js "a"));
    (env_b, LabelDoubleClick dog);
    (env_b, EditChange (js "Walk the dog  "));
    (env_b, EditCommit);
    (env_b, DeleteClick (js "a")) ].

(** * Properties of the reducer *)

Section Reducer.

Variable env : Env.

Implicit Types (L : list Todo) (t u : Todo) (x s : JsString) (i j : nat).

Lemma toggle_lookup L x i :
  todoReducer env L (TOGGLE_TODO x) !! i =
  (fun t => if bool_decide (id t = x)
            then with_completed t (negb (completed t)) else t) <$> (L !! i).
Proof. simpl. apply list_lookup_fmap. Qed.

Lemma update_lookup L x s i :
  todoReducer env L (UPDATE_TODO x s) !! i =
  (fun t => if bool_decide (id t = x) then with_text t s else t) <$> (L !! i).
Proof. simpl. apply list_lookup_fmap. Qed.

Lemma delete_cons_match L t :
  todoReducer env (t :: L) (DELETE_TODO (id t)) =
  todoReducer env L (DELETE_TODO (id t)).
Proof. simpl. rewrite filter_cons_False; [done | naive_solver]. Qed.

Lemma delete_cons_other L t x :
  id t ≠ x →
  todoReducer env (t :: L) (DELETE_TODO x) =
  t :: todoReducer env L (DELETE_TODO x).
Proof. intros Hne. simpl. by rewrite filter_cons_True. Qed.

Lemma delete_absent L x :
  x ∉ ids L → todoReducer env L (DELETE_TODO x) = L.
Proof.
  induction L as [|t L IH]; intros Hx; [done |].
  unfold ids in Hx. rewrite fmap_cons in Hx.
  apply not_elem_of_cons in Hx as [Hne Hx].
  rewrite delete_cons_other by congruence.
  f_equal. by apply IH.
Qed.

Lemma map_absent (f : Todo → Todo) L x :
  x ∉ ids L →
  (fun t => if bool_decide (id t = x) then f t else t) <$> L = L.
Proof.
  induction L as [|t L IH]; intros Hx; [done |].
  unfold ids in Hx. rewrite fmap_cons in Hx.
  apply not_elem_of_cons in Hx as [Hne Hx].
  rewrite fmap_cons. rewrite bool_decide_eq_false_2 by congruence.
  f_equal. by apply IH.
Qed.

Lemma ids_toggle L x : ids (todoReducer env L (TOGGLE_TODO x)) = ids L.
Proof.
  unfold ids. simpl. rewrite <- list_fmap_compose.
  apply list_fmap_ext. intros i t _. simpl. by case_bool_decide.
Qed.

Lemma ids_update L x s : ids (todoReducer env L (UPDATE_TODO x s)) = ids L.
Proof.
  unfold ids. simpl. rewrite <- list_fmap_compose.
  apply list_fmap_ext. intros i t _. simpl. by case_bool_decide.
Qed.

Lemma ids_delete_sublist L x :
  sublist (ids (todoReducer env L (DELETE_TODO x))) (ids L).
Proof. unfold ids. simpl. apply fmap_sublist, sublist_filter. Qed.

End Reducer.

(** ** Add, Toggle, Delete, Update-text *)

(** C1: for every list [L] and string [s], ADD_TODO with payload [s]
    returns a list of length [|L| + 1] whose first [|L|] elements are those
    of [L], followed by one new task with [text = s], [completed = false],
    the id drawn from [crypto.randomUUID()] during the call and the
    [createdAt] stamp read from the clock during the call. *)
Theorem add_appends_new_task (env : Env) (L : list Todo) (s : JsString) :
  length (todoReducer env L (ADD_TODO s)) = S (length L)
  ∧ take (length L) (todoReducer env L (ADD_TODO s)) = L
  ∧ todoReducer env L (ADD_TODO s) !! length L =
      Some {| id := randomUUID env; text := s; completed := false;
              createdAt := toISOString env |}.
Proof.
  simpl. split; [| split].
  - rewrite length_app. simpl. lia.
  - apply take_app_length.
  - apply list_lookup_middle. done.
Qed.

(** C2: when [L] holds an item with id [x] (at position [i]), TOGGLE_TODO
    with payload [x] returns a list of the same length, with at position
    [i] the same item with [completed] negated and [id], [text],
    [createdAt] as before, and with every item of another id at its old
    position, unchanged. *)
Theorem toggle_flips_completed (env : Env) (L : list Todo) (x : JsString)
    (i : nat) (t : Todo) :
  L !! i = Some t → id t = x →
  length (todoReducer env L (TOGGLE_TODO x)) = length L
  ∧ (∃ t', todoReducer env L (TOGGLE_TODO x) !! i = Some t'
           ∧ completed t' = negb (completed t)
           ∧ id t' = id t ∧ text t' = text t ∧ createdAt t' = createdAt t)
  ∧ (∀ j u, L !! j = Some u → id u ≠ x →
            todoReducer env L (TOGGLE_TODO x) !! j = Some u).
Proof.
  intros Hi Hx. split; [| split].
  - simpl. apply length_fmap.
  - exists (with_completed t (negb (completed t))).
    rewrite toggle_lookup, Hi. simpl.
    by rewrite bool_decide_eq_true_2.
  - intros j u Hj Hne. rewrite toggle_lookup, Hj. simpl.
    by rewrite bool_decide_eq_false_2.
Qed.

(** C3: when the ids of [L] are pairwise distinct and the item at position
    [i] has id [x], DELETE_TODO with payload [x] returns [L] without
    position [i]: the items before and after it, unchanged and in their
    original order. *)
Theorem delete_removes_that_item (env : Env) (L : list Todo) (x : JsString)
    (i : nat) (t : Todo) :
  NoDup (ids L) → L !! i = Some t → id t = x →
  todoReducer env L (DELETE_TODO x) = take i L ++ drop (S i) L
  ∧ length (todoReducer env L (DELETE_TODO x)) = pred (length L).
Proof.
  intros Hnd Hi Hx.
  assert (todoReducer env L (DELETE_TODO x) = take i L ++ drop (S i) L) as ->.
  { revert i Hnd Hi. induction L as [|u L IH]; intros i Hnd Hi; [done |].
    unfold ids in Hnd. rewrite fmap_cons in Hnd.
    apply NoDup_cons in Hnd as [Hu Hnd].
    destruct i as [|i]; simpl in Hi.
    - injection Hi as ->. subst x.
      rewrite delete_cons_match. rewrite delete_absent by done.
      done.
    - assert (id u ≠ x) as Hne.
      { intros Heq. apply Hu. subst x. rewrite Heq.
        apply list_elem_of_fmap. exists t. split; [done |].
        by eapply list_elem_of_lookup_2. }
      rewrite delete_cons_other by done.
      rewrite (IH i Hnd Hi). done. }
  split; [done |].
  pose proof (lookup_lt_Some _ _ _ Hi) as Hlt.
  rewrite length_app, length_take, length_drop. lia.
Qed.

(** C4: when no item of [L] has id [x], TOGGLE_TODO, DELETE_TODO and
    UPDATE_TODO with that id each return a list equal to [L]. *)
Theorem unmatched_id_is_noop (env : Env) (L : list Todo) (x s : JsString) :
  x ∉ ids L →
  todoReducer env L (TOGGLE_TODO x) = L
  ∧ todoReducer env L (DELETE_TODO x) = L
  ∧ todoReducer env L (UPDATE_TODO x s) = L.
Proof.
  intros Hx. split; [| split].
  - simpl. by apply (map_absent (fun t => with_completed t (negb (completed t)))).
  - by apply delete_absent.
  - simpl. by apply (map_absent (fun t => with_text t s)).
Qed.

(** C5: when [L] holds an item with id [x] (at position [i]), UPDATE_TODO
    with payload [{id: x, text: s}] returns a list of the same length,
    with at position [i] the same item with [text = s] and [id],
    [completed], [createdAt] as before, and with every item of another id
    at its old position, unchanged. *)
Theorem update_replaces_text_only (env : Env) (L : list Todo) (x s : JsString)
    (i : nat) (t : Todo) :
  L !! i = Some t → id t = x →
  length (todoReducer env L (UPDATE_TODO x s)) = length L
  ∧ (∃ t', todoReducer env L (UPDATE_TODO x s) !! i = Some t'
           ∧ text t' = s
           ∧ id t' = id t ∧ completed t' = completed t
           ∧ createdAt t' = createdAt t)
  ∧ (∀ j u, L !! j = Some u → id u ≠ x →
            todoReducer env L (UPDATE_TODO x s) !! j = Some u).
Proof.
  intros Hi Hx. split; [| split].
  - simpl. apply length_fmap.
  - exists (with_text t s).
    rewrite update_lookup, Hi. simpl.
    by rewrite bool_decide_eq_true_2.
  - intros j u Hj Hne. rewrite update_lookup, Hj. simpl.
    by rewrite bool_decide_eq_false_2.
Qed.

(** C9: DELETE_TODO is idempotent: deleting the same id twice gives the
    same list as deleting it once. *)
Theorem delete_idempotent (env : Env) (L : list Todo) (x : JsString) :
  todoReducer env (todoReducer env L (DELETE_TODO x)) (DELETE_TODO x)
  = todoReducer env L (DELETE_TODO x).
Proof.
  simpl. apply list_filter_filter_l. done.
Qed.

(** ** Lists with a repeated id *)






(** ** Uniqueness of ids *)

Lemma reducer_keeps_ids_unique (env : Env) (L : list Todo) (a : Action) :
  NoDup (ids L) → id_safe L (env, a) → NoDup (ids (todoReducer env L a)).
Proof.
  intros Hnd Hsafe. destruct a as [p | s | x | x | x s]; simpl in Hsafe.
  - done.
  - simpl. unfold ids. rewrite fmap_app. simpl.
    apply NoDup_app. split; [done |]. split.
    + intros y Hy ->%list_elem_of_singleton. by apply Hsafe.
    + apply NoDup_singleton.
  - by rewrite ids_toggle.
  - eapply sublist_NoDup; [exact Hnd |]. apply ids_delete_sublist.
  - by rewrite ids_update.
Qed.

(** C8 (as amended): along a run that starts from a list without repeated
    ids, in which every SET_TODOS payload is without repeated ids and every
    id generated for ADD_TODO is not yet in the list, no two items ever
    share an id; TOGGLE_TODO, DELETE_TODO and UPDATE_TODO need no
    condition. *)
Theorem ids_unique_along_safe_runs (L : list Todo) (ds : list Dispatch) :
  NoDup (ids L) → id_safe_run L ds → NoDup (ids (run L ds)).
Proof.
  revert L. induction ds as [|[env a] ds IH]; intros L Hnd Hsafe.
  - done.
  - simpl in Hsafe. destruct Hsafe as [Hd Hds].
    unfold run. simpl. apply IH; [| done].
    by apply reducer_keeps_ids_unique.
Qed.

(** C8 as stated fails: SET_TODOS with a payload that repeats an id is a
    transition from the empty list to a list with two items of one id. *)
Lemma ids_unique_always_fails :
  run [] [(env_a, SET_TODOS [milk; milk_again])] = [milk; milk_again]
  ∧ id milk = id milk_again
  ∧ ¬ NoDup (ids (run [] [(env_a, SET_TODOS [milk; milk_again])])).
Proof.
  split; [reflexivity |]. split; [reflexivity |].
  intros H. unfold run in H. simpl in H.
  apply NoDup_cons in H as [H _]. apply H. left.
Qed.

(** * Properties of the JSON text *)

(** ** Strings *)

Lemma hex_val_hex_digit (d : N) : d < 16 → hex_val (hex_digit d) = Some d.
Proof.
  intros Hd. unfold hex_digit.
  destruct (N.ltb_spec d 10).
  - unfold hex_val.
    replace ((48 <=? 48 + d) && (48 + d <=? 57)) with true.
    + f_equal. lia.
    + symmetry. apply andb_true_iff. split; apply N.leb_le; lia.
  - unfold hex_val.
    replace ((48 <=? 87 + d) && (87 + d <=? 57)) with false.
    + replace ((97 <=? 87 + d) && (87 + d <=? 102)) with true.
      * f_equal. lia.
      * symmetry. apply andb_true_iff. split; apply N.leb_le; lia.
    + symmetry. apply andb_false_iff. right. apply N.leb_gt. lia.
Qed.

Lemma hex4_UnicodeEscape (c : N) :
  c < 65536 →
  hex4 (hex_digit (c / 4096 mod 16)) (hex_digit (c / 256 mod 16))
       (hex_digit (c / 16 mod 16)) (hex_digit (c mod 16)) = Some c.
Proof.
  intros Hc. unfold hex4.
  rewrite !hex_val_hex_digit by (apply N.mod_lt; lia).
  f_equal. zify. Z.to_euclidean_division_equations. lia.
Qed.

Lemma parse_chars_UnicodeEscape (c : N) (rest : JsString) :
  c < 65536 →
  parse_chars (UnicodeEscape c ++ rest) = read_more c (parse_chars rest).
Proof.
  intros Hc. unfold UnicodeEscape. simpl.
  by rewrite hex4_UnicodeEscape.
Qed.

Lemma parse_chars_literal (c : N) (rest : JsString) :
  c ≠ 34 → c ≠ 92 → 32 <= c →
  parse_chars (c :: rest) = read_more c (parse_chars rest).
Proof.
  intros H1 H2 H3. simpl.
  destruct (N.eqb_spec c 34); [done |].
  destruct (N.eqb_spec c 92); [done |].
  destruct (N.ltb_spec c 32); [lia | done].
Qed.

Lemma parse_chars_quote_unit (c : N) (rest : JsString) :
  parse_chars (quote_unit c ++ rest) = read_more c (parse_chars rest).
Proof.
  unfold quote_unit.
  destruct (N.eqb_spec c 8) as [-> |]; [done |].
  destruct (N.eqb_spec c 9) as [-> |]; [done |].
  destruct (N.eqb_spec c 10) as [-> |]; [done |].
  destruct (N.eqb_spec c 12) as [-> |]; [done |].
  destruct (N.eqb_spec c 13) as [-> |]; [done |].
  destruct (N.eqb_spec c 34) as [-> |]; [done |].
  destruct (N.eqb_spec c 92) as [-> |]; [done |].
  destruct (N.ltb_spec c 32).
  - apply parse_chars_UnicodeEscape. lia.
  - by apply parse_chars_literal.
Qed.

Lemma leading_surrogate_range (c : N) :
  is_leading_surrogate c = true → 55296 <= c <= 56319.
Proof.
  unfold is_leading_surrogate. intros [H1 H2]%andb_true_iff.
  apply N.leb_le in H1, H2. lia.
Qed.

Lemma trailing_surrogate_range (c : N) :
  is_trailing_surrogate c = true → 56320 <= c <= 57343.
Proof.
  unfold is_trailing_surrogate. intros [H1 H2]%andb_true_iff.
  apply N.leb_le in H1, H2. lia.
Qed.

Lemma quote_body_cons (c : N) (r : JsString) :
  quote_body (c :: r) =
  if is_leading_surrogate c then
    match r with
    | d :: r' =>
        if is_trailing_surrogate d then c :: d :: quote_body r'
        else UnicodeEscape c ++ quote_body r
    | [] => UnicodeEscape c
    end
  else if is_trailing_surrogate c then UnicodeEscape c ++ quote_body r
  else quote_unit c ++ quote_body r.
Proof. reflexivity. Qed.

(** Reading back what [QuoteJSONString] wrote, whatever follows the
    closing quote. *)
Lemma parse_chars_quote_body (s rest : JsString) :
  parse_chars (quote_body s ++ 34 :: rest) = Some (s, rest).
Proof.
  remember (length s) as n eqn:Hn.
  revert s Hn. induction n as [n IH] using lt_wf_ind. intros s Hn.
  destruct s as [|c r]; [done |].
  rewrite quote_body_cons.
  destruct (is_leading_surrogate c) eqn:Hlead.
  - apply leading_surrogate_range in Hlead.
    destruct r as [|d r'].
    + rewrite parse_chars_UnicodeEscape by lia. done.
    + destruct (is_trailing_surrogate d) eqn:Htrail.
      * apply trailing_surrogate_range in Htrail.
        rewrite <- !app_comm_cons.
        rewrite parse_chars_literal by lia.
        rewrite parse_chars_literal by lia.
        rewrite (IH (length r')); [done | | done].
        subst n. simpl. lia.
      * rewrite <- app_assoc.
        rewrite parse_chars_UnicodeEscape by lia.
        rewrite (IH (length (d :: r'))); [done | | done].
        subst n. simpl. lia.
  - destruct (is_trailing_surrogate c) eqn:Htrail.
    + apply trailing_surrogate_range in Htrail.
      rewrite <- app_assoc.
      rewrite parse_chars_UnicodeEscape by lia.
      rewrite (IH (length r)); [done | | done].
      subst n. simpl. lia.
    + rewrite <- app_assoc.
      rewrite parse_chars_quote_unit.
      rewrite (IH (length r)); [done | | done].
      subst n. simpl. lia.
Qed.

(** ** Values *)

Lemma QuoteJSONString_app (s rest : JsString) :
  QuoteJSONString s ++ rest = 34 :: quote_body s ++ 34 :: rest.
Proof.
  unfold QuoteJSONString. rewrite <- !app_assoc. done.
Qed.

Lemma parse_value_string (f : nat) (s rest : JsString) :
  parse_value (S f) (QuoteJSONString s ++ rest) = Some (JString s, rest).
Proof.
  rewrite QuoteJSONString_app.
  change (parse_value (S f) (34 :: quote_body s ++ 34 :: rest))
    with (match parse_chars (quote_body s ++ 34 :: rest) with
          | Some (str, rest') => Some (JString str, rest')
          | None => None
          end).
  by rewrite parse_chars_quote_body.
Qed.

Lemma parse_value_bool (f : nat) (b : bool) (rest : JsString) :
  parse_value (S f) (stringify_bool b ++ rest) = Some (JBool b, rest).
Proof. destruct b; reflexivity. Qed.

(** One member followed by a comma: the parser goes on with the next
    member. *)
Lemma parse_members_more (f : nat) (k body more : JsString) (v : JsValue) :
  parse_value f body = Some (v, [44] ++ more) →
  parse_members (S f) (QuoteJSONString k ++ [58] ++ body) =
  match parse_members f more with
  | Some (ms, rest) => Some ((k, v) :: ms, rest)
  | None => None
  end.
Proof.
  intros Hv. rewrite QuoteJSONString_app.
  change (parse_members (S f) (34 :: quote_body k ++ 34 :: [58] ++ body))
    with (match parse_chars (quote_body k ++ 34 :: [58] ++ body) with
          | None => None
          | Some (k, r1) =>
              match skip_ws r1 with
              | c1 :: r2 =>
                  if c1 =? 58 then
                    match parse_value f r2 with
                    | None => None
                    | Some (v, r3) =>
                        match skip_ws r3 with
                        | c2 :: r4 =>
                            if c2 =? 44 then
                              match parse_members f r4 with
                              | Some (ms, rest) => Some ((k, v) :: ms, rest)
                              | None => None
                              end
                            else if c2 =? 125 then Some ([(k, v)], r4)
                            else None
                        | [] => None
                        end
                    end
                  else None
              | [] => None
              end
          end).
  rewrite parse_chars_quote_body.
  change (skip_ws ([58] ++ body)) with (58 :: body).
  change (58 =? 58) with true. cbv iota.
  rewrite Hv. done.
Qed.

(** The last member, followed by the closing brace. *)
Lemma parse_members_last (f : nat) (k body rest : JsString) (v : JsValue) :
  parse_value f body = Some (v, [125] ++ rest) →
  parse_members (S f) (QuoteJSONString k ++ [58] ++ body) =
  Some ([(k, v)], rest).
Proof.
  intros Hv. rewrite QuoteJSONString_app.
  change (parse_members (S f) (34 :: quote_body k ++ 34 :: [58] ++ body))
    with (match parse_chars (quote_body k ++ 34 :: [58] ++ body) with
          | None => None
          | Some (k, r1) =>
              match skip_ws r1 with
              | c1 :: r2 =>
                  if c1 =? 58 then
                    match parse_value f r2 with
                    | None => None
                    | Some (v, r3) =>
                        match skip_ws r3 with
                        | c2 :: r4 =>
                            if c2 =? 44 then
                              match parse_members f r4 with
                              | Some (ms, rest) => Some ((k, v) :: ms, rest)
                              | None => None
                              end
                            else if c2 =? 125 then Some ([(k, v)], r4)
                            else None
                        | [] => None
                        end
                    end
                  else None
              | [] => None
              end
          end).
  rewrite parse_chars_quote_body.
  change (skip_ws ([58] ++ body)) with (58 :: body).
  change (58 =? 58) with true. cbv iota.
  rewrite Hv. done.
Qed.

(** An object whose first member starts right after the brace. *)
Lemma parse_value_object (f : nat) (k r : JsString) :
  parse_value (S f) ([123] ++ QuoteJSONString k ++ r) =
  match parse_members f (QuoteJSONString k ++ r) with
  | Some (ms, rest) => Some (make_object ms, rest)
  | None => None
  end.
Proof. reflexivity. Qed.

(** One task object is read back, whatever follows it. *)
Lemma parse_value_Todo (f : nat) (t : Todo) (rest : JsString) :
  parse_value (6 + f) (stringify_Todo t ++ rest) = Some (Todo_to_js t, rest).
Proof.
  unfold stringify_Todo. rewrite <- !app_assoc.
  change (6 + f)%nat with (S (S (S (S (S (S f)))))).
  rewrite parse_value_object.
  rewrite (parse_members_more _ _ _ _ _ (parse_value_string _ _ _)).
  rewrite (parse_members_more _ _ _ _ _ (parse_value_string _ _ _)).
  rewrite (parse_members_more _ _ _ _ _ (parse_value_bool _ _ _)).
  rewrite (parse_members_last _ _ _ _ _ (parse_value_string _ _ _)).
  reflexivity.
Qed.

(** ** Arrays of tasks *)

Lemma parse_elements_S (f : nat) (s : JsString) :
  parse_elements (S f) s =
  match parse_value f s with
  | None => None
  | Some (v, r) =>
      match skip_ws r with
      | c :: r1 =>
          if c =? 44 then
            match parse_elements f r1 with
            | Some (vs, rest) => Some (v :: vs, rest)
            | None => None
            end
          else if c =? 93 then Some ([v], r1)
          else None
      | [] => None
      end
  end.
Proof. reflexivity. Qed.

Lemma stringify_elements_cons2 (t u : Todo) (L : list Todo) :
  stringify_elements (t :: u :: L) =
  stringify_Todo t ++ [44] ++ stringify_elements (u :: L).
Proof. reflexivity. Qed.

(** A non-empty sequence of task objects up to the closing bracket, given
    fuel for the objects and one unit more per element. *)
Lemma parse_elements_Todos (L : list Todo) (t : Todo) (f : nat)
    (rest : JsString) :
  parse_elements (7 + length L + f)
    (stringify_elements (t :: L) ++ [93] ++ rest)
  = Some (Todo_to_js <$> (t :: L), rest).
Proof.
  revert t f. induction L as [|u L IH]; intros t f.
  - change (7 + length (@nil Todo) + f)%nat with (S (6 + f)).
    rewrite parse_elements_S.
    change (stringify_elements [t]) with (stringify_Todo t).
    rewrite parse_value_Todo. reflexivity.
  - replace (7 + length (u :: L) + f)%nat
      with (S (6 + (1 + length L + f))) by (simpl; lia).
    rewrite parse_elements_S, stringify_elements_cons2, <- !app_assoc.
    rewrite parse_value_Todo.
    change (skip_ws ([44] ++ stringify_elements (u :: L) ++ [93] ++ rest))
      with (44 :: stringify_elements (u :: L) ++ [93] ++ rest).
    change (44 =? 44) with true. cbv iota.
    replace (6 + (1 + length L + f))%nat with (7 + length L + f)%nat by lia.
    rewrite IH. reflexivity.
Qed.

Lemma stringify_Todo_head (t : Todo) :
  ∃ body, stringify_Todo t = [123] ++ QuoteJSONString (js "id") ++ body.
Proof. eexists. reflexivity. Qed.

Lemma stringify_elements_head (t : Todo) (L : list Todo) :
  ∃ body,
    stringify_elements (t :: L) = [123] ++ QuoteJSONString (js "id") ++ body.
Proof.
  destruct (stringify_Todo_head t) as [body Hb].
  destruct L as [|u L].
  - exists body. exact Hb.
  - exists (body ++ [44] ++ stringify_elements (u :: L)).
    rewrite stringify_elements_cons2, Hb, <- !app_assoc. done.
Qed.

Lemma stringify_Todo_length (t : Todo) : (2 ≤ length (stringify_Todo t))%nat.
Proof.
  unfold stringify_Todo. rewrite !length_app. simpl. lia.
Qed.

Lemma stringify_elements_length (L : list Todo) :
  (2 * length L ≤ length (stringify_elements L))%nat.
Proof.
  induction L as [|t [|u L] IH].
  - done.
  - pose proof (stringify_Todo_length t). simpl. lia.
  - rewrite stringify_elements_cons2, !length_app.
    pose proof (stringify_Todo_length t).
    change (length (t :: u :: L)) with (S (length (u :: L))).
    simpl length at 3. lia.
Qed.

(** [JSON.parse] reads back what [JSON.stringify] wrote for a list of
    tasks: the fuel it starts with is enough. *)
Lemma JSON_parse_stringify (L : list Todo) :
  JSON_parse (JSON_stringify L) = Some (todos_to_js L).
Proof.
  destruct L as [|t L]; [reflexivity |].
  unfold JSON_parse, JSON_stringify.
  pose proof (stringify_elements_length (t :: L)) as Hlen.
  set (text := [91] ++ stringify_elements (t :: L) ++ [93]).
  assert (length text = 2 + length (stringify_elements (t :: L)))%nat as Htext.
  { unfold text. rewrite !length_app. simpl. lia. }
  change (length (t :: L)) with (S (length L)) in Hlen.
  replace (2 * length text)%nat
    with (7 + length L + (2 * length text - 7 - length L))%nat by lia.
  unfold text.
  destruct (stringify_elements_head t L) as [body Hb].
  assert (∀ g, parse_value (S g) ([91] ++ stringify_elements (t :: L) ++ [93])
               = match parse_elements g (stringify_elements (t :: L) ++ [93]) with
                 | Some (vs, rest) => Some (JArray vs, rest)
                 | None => None
                 end) as Hopen.
  { intros g. rewrite Hb. reflexivity. }
  rewrite Hopen.
  rewrite (parse_elements_Todos L t _ []).
  reflexivity.
Qed.

Lemma Todo_of_js_to_js (t : Todo) : Todo_of_js (Todo_to_js t) = Some t.
Proof. destruct t. reflexivity. Qed.

Lemma todos_of_js_to_js (L : list Todo) : todos_of_js (todos_to_js L) = Some L.
Proof.
  unfold todos_of_js, todos_to_js.
  apply mapM_Some, Forall2_fmap_l, Forall_Forall2_diag, Forall_true.
  apply Todo_of_js_to_js.
Qed.

Lemma JSON_stringify_truthy (L : list Todo) : truthy (JSON_stringify L) = true.
Proof. reflexivity. Qed.


(** ** Fuel *)

Lemma skip_ws_length (s : JsString) : (length (skip_ws s) ≤ length s)%nat.
Proof.
  induction s as [|c r IH]; [done |].
  simpl. destruct (is_ws c); simpl; lia.
Qed.

Lemma skip_ws_cons_length (s r : JsString) (c : N) :
  skip_ws s = c :: r → (length r < length s)%nat.
Proof.
  intros H. pose proof (skip_ws_length s) as Hl. rewrite H in Hl.
  simpl in Hl. lia.
Qed.

Lemma parse_chars_length (s str rest : JsString) :
  parse_chars s = Some (str, rest) → (length rest < length s)%nat.
Proof.
  remember (length s) as n eqn:Hn.
  revert s str rest Hn. induction n as [n IH] using lt_wf_ind.
  intros s str rest Hn H.
  destruct s as [|c r]; [discriminate |].
  simpl in H. simpl in Hn.
  destruct (c =? 34).
  { injection H as _ <-. lia. }
  destruct (c =? 92).
  - destruct r as [|e r1]; [discriminate |].
    destruct (e =? 117).
    + destruct r1 as [|h3 [|h2 [|h1 [|h0 r2]]]]; try discriminate.
      destruct (hex4 h3 h2 h1 h0); [| discriminate].
      destruct (parse_chars r2) as [[str' rest']|] eqn:Hr; [| discriminate].
      injection H as _ <-.
      apply (IH (length r2)) in Hr; simpl in *; lia.
    + destruct (unescape e); [| discriminate].
      destruct (parse_chars r1) as [[str' rest']|] eqn:Hr; [| discriminate].
      injection H as _ <-.
      apply (IH (length r1)) in Hr; simpl in *; lia.
  - destruct (c <? 32); [discriminate |].
    destruct (parse_chars r) as [[str' rest']|] eqn:Hr; [| discriminate].
    injection H as _ <-.
    apply (IH (length r)) in Hr; simpl in *; lia.
Qed.

Lemma span_digits_length (s ds rest : JsString) :
  span_digits s = (ds, rest) → (length rest ≤ length s)%nat.
Proof.
  revert ds rest. induction s as [|c r IH]; intros ds rest H; simpl in H.
  - injection H as _ <-. done.
  - destruct (is_digit c).
    + destruct (span_digits r) as [ds' rest'] eqn:Hr.
      injection H as _ <-. specialize (IH _ _ eq_refl). simpl. lia.
    + injection H as _ <-. done.
Qed.

Lemma parse_int_length (s i rest : JsString) :
  parse_int s = Some (i, rest) → (length rest < length s)%nat.
Proof.
  destruct s as [|c r]; [discriminate |]. simpl.
  destruct (c =? 48).
  { intros H. injection H as _ <-. lia. }
  destruct (is_digit c); [| discriminate].
  destruct (span_digits r) as [ds rest'] eqn:Hr.
  intros H. injection H as _ <-.
  apply span_digits_length in Hr. lia.
Qed.

Lemma parse_fraction_length (s fr rest : JsString) :
  parse_fraction s = Some (fr, rest) → (length rest ≤ length s)%nat.
Proof.
  destruct s as [|c r]; simpl.
  { intros H. injection H as _ <-. done. }
  destruct (c =? 46).
  - destruct (span_digits r) as [ds rest'] eqn:Hr.
    apply span_digits_length in Hr.
    destruct ds; [discriminate |].
    intros H. injection H as _ <-. lia.
  - intros H. injection H as _ <-. done.
Qed.

Lemma parse_exponent_length (s e rest : JsString) :
  parse_exponent s = Some (e, rest) → (length rest ≤ length s)%nat.
Proof.
  destruct s as [|c r]; simpl.
  { intros H. injection H as _ <-. done. }
  destruct ((c =? 101) || (c =? 69)).
  - destruct r as [|g r'].
    + simpl. discriminate.
    + destruct ((g =? 43) || (g =? 45)).
      * destruct (span_digits r') as [ds rest'] eqn:Hr.
        apply span_digits_length in Hr.
        destruct ds; [discriminate |].
        intros H. injection H as _ <-. simpl. lia.
      * destruct (span_digits (g :: r')) as [ds rest'] eqn:Hr.
        apply span_digits_length in Hr.
        destruct ds; [discriminate |].
        intros H. injection H as _ <-. simpl in *. lia.
  - intros H. injection H as _ <-. done.
Qed.

Lemma parse_number_length (s lexeme rest : JsString) :
  parse_number s = Some (lexeme, rest) → (length rest < length s)%nat.
Proof.
  unfold parse_number.
  assert (∀ s0 : JsString,
            match parse_int s0 with
            | Some (i, s1) =>
                match parse_fraction s1 with
                | Some (f, s2) =>
                    match parse_exponent s2 with
                    | Some (e, s3) => (length s3 < length s0)%nat
                    | None => True
                    end
                | None => True
                end
            | None => True
            end) as Hbody.
  { intros s0.
    destruct (parse_int s0) as [[i s1]|] eqn:Hi; [| done].
    destruct (parse_fraction s1) as [[f s2]|] eqn:Hf; [| done].
    destruct (parse_exponent s2) as [[e s3]|] eqn:He; [| done].
    apply parse_int_length in Hi. apply parse_fraction_length in Hf.
    apply parse_exponent_length in He. lia. }
  destruct s as [|c r].
  - specialize (Hbody []). simpl in *. discriminate.
  - destruct (c =? 45).
    + specialize (Hbody r).
      destruct (parse_int r) as [[i s1]|]; [| discriminate].
      destruct (parse_fraction s1) as [[f s2]|]; [| discriminate].
      destruct (parse_exponent s2) as [[e s3]|]; [| discriminate].
      intros H. injection H as _ <-. simpl. lia.
    + specialize (Hbody (c :: r)).
      destruct (parse_int (c :: r)) as [[i s1]|]; [| discriminate].
      destruct (parse_fraction s1) as [[f s2]|]; [| discriminate].
      destruct (parse_exponent s2) as [[e s3]|]; [| discriminate].
      intros H. injection H as _ <-. done.
Qed.

Lemma strip_prefix_length (p s rest : JsString) :
  strip_prefix p s = Some rest → length s = (length p + length rest)%nat.
Proof.
  revert s. induction p as [|a p IH]; intros s H; simpl in H.
  - injection H as <-. done.
  - destruct s as [|c r]; [discriminate |].
    destruct (c =? a); [| discriminate].
    apply IH in H. simpl. lia.
Qed.

Lemma parse_literal_length (lit s rest : JsString) (v v' : JsValue) :
  lit ≠ [] →
  parse_literal lit v s = Some (v', rest) → (length rest < length s)%nat.
Proof.
  intros Hlit. unfold parse_literal.
  destruct (strip_prefix lit s) as [r|] eqn:Hs; [| discriminate].
  intros H. injection H as _ <-.
  apply strip_prefix_length in Hs. destruct lit; [done |]. simpl in Hs. lia.
Qed.

Lemma parse_value_S (f : nat) (s : JsString) :
  parse_value (S f) s =
  match skip_ws s with
  | [] => None
  | c :: r =>
      if c =? 123 then
        match skip_ws r with
        | c1 :: r1 =>
            if c1 =? 125 then Some (JObject [], r1)
            else
              match parse_members f r with
              | Some (ms, rest) => Some (make_object ms, rest)
              | None => None
              end
        | [] => None
        end
      else if c =? 91 then
        match skip_ws r with
        | c1 :: r1 =>
            if c1 =? 93 then Some (JArray [], r1)
            else
              match parse_elements f r with
              | Some (vs, rest) => Some (JArray vs, rest)
              | None => None
              end
        | [] => None
        end
      else if c =? 34 then
        match parse_chars r with
        | Some (str, rest) => Some (JString str, rest)
        | None => None
        end
      else if c =? 116 then parse_literal (js "true") (JBool true) (c :: r)
      else if c =? 102 then parse_literal (js "false") (JBool false) (c :: r)
      else if c =? 110 then parse_literal (js "null") JNull (c :: r)
      else
        match parse_number (c :: r) with
        | Some (lexeme, rest) => Some (JNumber lexeme, rest)
        | None => None
        end
  end.
Proof. reflexivity. Qed.

Lemma parse_members_S (f : nat) (s : JsString) :
  parse_members (S f) s =
  match skip_ws s with
  | c :: r =>
      if c =? 34 then
        match parse_chars r with
        | None => None
        | Some (k, r1) =>
            match skip_ws r1 with
            | c1 :: r2 =>
                if c1 =? 58 then
                  match parse_value f r2 with
                  | None => None
                  | Some (v, r3) =>
                      match skip_ws r3 with
                      | c2 :: r4 =>
                          if c2 =? 44 then
                            match parse_members f r4 with
                            | Some (ms, rest) => Some ((k, v) :: ms, rest)
                            | None => None
                            end
                          else if c2 =? 125 then Some ([(k, v)], r4)
                          else None
                      | [] => None
                      end
                  end
                else None
            | [] => None
            end
        end
      else None
  | [] => None
  end.
Proof. reflexivity. Qed.

Lemma fuel_ok_0 {A : Type} (p : nat → JsString → option (A * JsString)) :
  (∀ s, p O s = None) → fuel_ok p 0.
Proof. intros Hp s x r H. rewrite Hp in H. discriminate. Qed.

Lemma fuel_ok_elements (f : nat) :
  fuel_ok parse_value f → fuel_ok parse_elements f →
  fuel_ok parse_elements (S f).
Proof.
  intros IHv IHe s x r H. rewrite parse_elements_S in H.
  destruct (parse_value f s) as [[v r1]|] eqn:Hv; [| discriminate].
  destruct (skip_ws r1) as [|c r2] eqn:Hws; [discriminate |].
  apply IHv in Hv as [Hv1 Hv2].
  pose proof (skip_ws_cons_length _ _ _ Hws) as Hl.
  destruct (c =? 44) eqn:Hc.
  - destruct (parse_elements f r2) as [[vs rest]|] eqn:He; [| discriminate].
    injection H as <- <-.
    apply IHe in He as [He1 He2].
    split; [lia |]. intros g Hg.
    destruct g as [|g]; [lia |].
    rewrite parse_elements_S, (Hv2 g), Hws, Hc, (He2 g) by lia. done.
  - destruct (c =? 93) eqn:Hc'; [| discriminate].
    injection H as <- <-.
    split; [lia |]. intros g Hg.
    destruct g as [|g]; [lia |].
    rewrite parse_elements_S, (Hv2 g), Hws, Hc, Hc' by lia. done.
Qed.

Lemma fuel_ok_members (f : nat) :
  fuel_ok parse_value f → fuel_ok parse_members f →
  fuel_ok parse_members (S f).
Proof.
  intros IHv IHm s x r H. rewrite parse_members_S in H.
  destruct (skip_ws s) as [|c r0] eqn:Hws0; [discriminate |].
  destruct (c =? 34) eqn:Hc0; [| discriminate].
  destruct (parse_chars r0) as [[k r1]|] eqn:Hk; [| discriminate].
  destruct (skip_ws r1) as [|c1 r2] eqn:Hws1; [discriminate |].
  destruct (c1 =? 58) eqn:Hc1; [| discriminate].
  destruct (parse_value f r2) as [[v r3]|] eqn:Hv; [| discriminate].
  destruct (skip_ws r3) as [|c2 r4] eqn:Hws3; [discriminate |].
  pose proof (skip_ws_cons_length _ _ _ Hws0).
  pose proof (parse_chars_length _ _ _ Hk).
  pose proof (skip_ws_cons_length _ _ _ Hws1).
  pose proof (skip_ws_cons_length _ _ _ Hws3).
  apply IHv in Hv as [Hv1 Hv2].
  destruct (c2 =? 44) eqn:Hc2.
  - destruct (parse_members f r4) as [[ms rest]|] eqn:Hm; [| discriminate].
    injection H as <- <-.
    apply IHm in Hm as [Hm1 Hm2].
    split; [lia |]. intros g Hg.
    destruct g as [|g]; [lia |].
    rewrite parse_members_S, Hws0, Hc0, Hk, Hws1, Hc1, (Hv2 g), Hws3, Hc2,
      (Hm2 g) by lia.
    done.
  - destruct (c2 =? 125) eqn:Hc2'; [| discriminate].
    injection H as <- <-.
    split; [lia |]. intros g Hg.
    destruct g as [|g]; [lia |].
    rewrite parse_members_S, Hws0, Hc0, Hk, Hws1, Hc1, (Hv2 g), Hws3, Hc2,
      Hc2' by lia.
    done.
Qed.

Lemma fuel_ok_value (f : nat) :
  fuel_ok parse_elements f → fuel_ok parse_members f →
  fuel_ok parse_value (S f).
Proof.
  intros IHe IHm s x r H. rewrite parse_value_S in H.
  destruct (skip_ws s) as [|c r0] eqn:Hws0; [discriminate |].
  pose proof (skip_ws_cons_length _ _ _ Hws0).
  assert (∀ g, (2 * (length s - length r) ≤ g)%nat →
               (length r < length s)%nat →
               ∃ g', g = S g' ∧ (2 * (length s - length r) ≤ S g')%nat)
    as Hsucc.
  { intros [|g'] ? ?; [lia | eauto]. }
  destruct (c =? 123) eqn:Hc123.
  { destruct (skip_ws r0) as [|c1 r1] eqn:Hws1; [discriminate |].
    pose proof (skip_ws_cons_length _ _ _ Hws1).
    destruct (c1 =? 125) eqn:Hc1.
    - injection H as <- <-. split; [lia |]. intros g Hg.
      destruct (Hsucc g Hg) as (g' & -> & _); [lia |].
      rewrite parse_value_S, Hws0, Hc123, Hws1, Hc1. done.
    - destruct (parse_members f r0) as [[ms rest]|] eqn:Hm; [| discriminate].
      injection H as <- <-.
      apply IHm in Hm as [Hm1 Hm2].
      split; [lia |]. intros g Hg.
      destruct (Hsucc g Hg) as (g' & -> & _); [lia |].
      rewrite parse_value_S, Hws0, Hc123, Hws1, Hc1, (Hm2 g') by lia. done. }
  destruct (c =? 91) eqn:Hc91.
  { destruct (skip_ws r0) as [|c1 r1] eqn:Hws1; [discriminate |].
    pose proof (skip_ws_cons_length _ _ _ Hws1).
    destruct (c1 =? 93) eqn:Hc1.
    - injection H as <- <-. split; [lia |]. intros g Hg.
      destruct (Hsucc g Hg) as (g' & -> & _); [lia |].
      rewrite parse_value_S, Hws0, Hc123, Hc91, Hws1, Hc1. done.
    - destruct (parse_elements f r0) as [[vs rest]|] eqn:He; [| discriminate].
      injection H as <- <-.
      apply IHe in He as [He1 He2].
      split; [lia |]. intros g Hg.
      destruct (Hsucc g Hg) as (g' & -> & _); [lia |].
      rewrite parse_value_S, Hws0, Hc123, Hc91, Hws1, Hc1, (He2 g') by lia.
      done. }
  destruct (c =? 34) eqn:Hc34.
  { destruct (parse_chars r0) as [[str rest]|] eqn:Hstr; [| discriminate].
    injection H as <- <-.
    pose proof (parse_chars_length _ _ _ Hstr).
    split; [lia |]. intros g Hg.
    destruct (Hsucc g Hg) as (g' & -> & _); [lia |].
    rewrite parse_value_S, Hws0, Hc123, Hc91, Hc34, Hstr. done. }
  destruct (c =? 116) eqn:Hc116.
  { pose proof (parse_literal_length (js "true") _ _ _ _
                  ltac:(vm_compute; discriminate) H).
    simpl in *. split; [lia |]. intros g Hg.
    destruct (Hsucc g Hg) as (g' & -> & _); [lia |].
    rewrite parse_value_S, Hws0, Hc123, Hc91, Hc34, Hc116. done. }
  destruct (c =? 102) eqn:Hc102.
  { pose proof (parse_literal_length (js "false") _ _ _ _
                  ltac:(vm_compute; discriminate) H).
    simpl in *. split; [lia |]. intros g Hg.
    destruct (Hsucc g Hg) as (g' & -> & _); [lia |].
    rewrite parse_value_S, Hws0, Hc123, Hc91, Hc34, Hc116, Hc102. done. }
  destruct (c =? 110) eqn:Hc110.
  { pose proof (parse_literal_length (js "null") _ _ _ _
                  ltac:(vm_compute; discriminate) H).
    simpl in *. split; [lia |]. intros g Hg.
    destruct (Hsucc g Hg) as (g' & -> & _); [lia |].
    rewrite parse_value_S, Hws0, Hc123, Hc91, Hc34, Hc116, Hc102, Hc110.
    done. }
  destruct (parse_number (c :: r0)) as [[lexeme rest]|] eqn:Hnum;
    [| discriminate].
  injection H as <- <-.
  pose proof (parse_number_length _ _ _ Hnum).
  simpl in *. split; [lia |]. intros g Hg.
  destruct (Hsucc g Hg) as (g' & -> & _); [lia |].
  rewrite parse_value_S, Hws0, Hc123, Hc91, Hc34, Hc116, Hc102, Hc110, Hnum.
  done.
Qed.

Lemma fuel_ok_all (f : nat) :
  fuel_ok parse_value f ∧ fuel_ok parse_elements f
  ∧ fuel_ok parse_members f.
Proof.
  induction f as [|f (IHv & IHe & IHm)].
  - split; [| split]; by apply fuel_ok_0.
  - split; [| split].
    + by apply fuel_ok_value.
    + by apply fuel_ok_elements.
    + by apply fuel_ok_members.
Qed.

(** The fuel [JSON_parse] starts with never runs out: a text that parses
    with some fuel parses, to the same value, with the fuel of
    [JSON_parse]. *)
Lemma JSON_parse_fuel (f : nat) (text rest : JsString) (v : JsValue) :
  parse_value f text = Some (v, rest) → skip_ws rest = [] →
  JSON_parse text = Some v.
Proof.
  intros Hv Hrest.
  destruct (fuel_ok_all f) as (Hok & _ & _).
  apply Hok in Hv as [_ Hv].
  unfold JSON_parse. rewrite (Hv (S (2 * length text))) by lia.
  by rewrite Hrest.
Qed.

Lemma JSON_parse_None_any_fuel (f : nat) (text : JsString) :
  JSON_parse text = None →
  match parse_value f text with
  | Some (_, rest) => skip_ws rest ≠ []
  | None => True
  end.
Proof.
  intros Hnone.
  destruct (parse_value f text) as [[v rest]|] eqn:Hv; [| done].
  intros Hrest. by rewrite (JSON_parse_fuel f text rest v) in Hnone.
Qed.

Lemma JSON_parse_Some_iff (text : JsString) (v : JsValue) :
  JSON_parse text = Some v
  ↔ ∃ f rest, parse_value f text = Some (v, rest) ∧ skip_ws rest = [].
Proof.
  split.
  - unfold JSON_parse. intros H.
    destruct (parse_value (S (2 * length text)) text) as [[v' rest]|] eqn:Hv;
      [| discriminate].
    destruct (skip_ws rest) eqn:Hrest; [| discriminate].
    injection H as ->. eauto.
  - intros (f & rest & Hv & Hrest). by eapply JSON_parse_fuel.
Qed.

(** * Properties of the persistence effects *)

Lemma getItem_setItem (ls : Storage) (key value : JsString) :
  getItem (setItem ls key value) key = Some value.
Proof. unfold getItem, setItem. apply lookup_insert_eq. Qed.

Lemma initApp_saveTodos (L : list Todo) (ls : Storage) :
  initApp (saveTodos true L ls)
  = {| todos := todos_to_js L; isMounted := true; console_error := [] |}.
Proof.
  unfold initApp, saveTodos. rewrite getItem_setItem.
  rewrite JSON_stringify_truthy, JSON_parse_stringify. done.
Qed.

(** C6: for every list [L] of tasks, the empty list included, and whatever
    the storage held before, writing [JSON.stringify(L)] under the key and
    then running the mount effect on that storage gives the page the value
    of [L]: the array of the same task objects, which reads back at type
    [Todo[]] as [L]; nothing is logged. *)
Theorem save_then_load_round_trip (L : list Todo) (ls : Storage) :
  initApp (saveTodos true L ls)
  = {| todos := todos_to_js L; isMounted := true; console_error := [] |}
  ∧ todos_of_js (todos (initApp (saveTodos true L ls))) = Some L.
Proof.
  split; [apply initApp_saveTodos |].
  rewrite initApp_saveTodos. simpl. apply todos_of_js_to_js.
Qed.




(** ** Instances *)

Lemma toggle_flips_completed_witness :
  [milk; dog] !! 0%nat = Some milk
  ∧ todoReducer env_a [milk; dog] (TOGGLE_TODO (js "a")) !! 1%nat = Some dog.
Proof.
  split; [reflexivity |].
  apply (toggle_flips_completed env_a [milk; dog] (js "a") 0%nat milk
           eq_refl eq_refl).
  - reflexivity.
  - vm_compute. discriminate.
Defined.

Lemma unique_ids_milk_dog : NoDup (ids [milk; dog]).
Proof.
  apply NoDup_cons. split.
  - intros Hin%list_elem_of_singleton. vm_compute in Hin. discriminate.
  - apply NoDup_singleton.
Defined.

Lemma delete_removes_that_item_witness :
  todoReducer env_a [milk; dog] (DELETE_TODO (js "b")) = [milk].
Proof.
  apply (delete_removes_that_item env_a [milk; dog] (js "b") 1%nat dog
           unique_ids_milk_dog eq_refl eq_refl).
Defined.

Lemma unmatched_id_is_noop_witness :
  todoReducer env_a [milk] (TOGGLE_TODO (js "b")) = [milk]
  ∧ todoReducer env_a [milk] (DELETE_TODO (js "b")) = [milk]
  ∧ todoReducer env_a [milk] (UPDATE_TODO (js "b") (js "x")) = [milk].
Proof.
  apply (unmatched_id_is_noop env_a [milk] (js "b") (js "x")).
  intros Hin%list_elem_of_singleton. vm_compute in Hin. discriminate.
Defined.

Lemma update_replaces_text_only_witness :
  [milk; dog] !! 1%nat = Some dog
  ∧ length (todoReducer env_a [milk; dog] (UPDATE_TODO (js "b") (js "Run")))
    = 2%nat.
Proof.
  split; [reflexivity |].
  apply (update_replaces_text_only env_a [milk; dog] (js "b") (js "Run")
           1%nat dog eq_refl eq_refl).
Defined.


Lemma ids_unique_along_safe_runs_witness : NoDup (ids (run [] busy_run)).
Proof.
  apply (ids_unique_along_safe_runs [] busy_run).
  - apply NoDup_nil_2.
  - simpl. split; [| split; [| done]].
    + apply NoDup_singleton.
    + intros Hin%list_elem_of_singleton. vm_compute in Hin. discriminate.
Defined.


(** ** The scenarios of the specification *)

Example scenario_add_add_toggle :
  run [] scenario = [with_completed milk true; dog].
Proof. reflexivity. Qed.

Example scenario_delete_then_reload :
  todoReducer env_a [milk] (DELETE_TODO (js "a")) = []
  ∧ todos (initApp (saveTodos true [] (storage_with (JSON_stringify [milk]))))
    = JArray [].
Proof.
  split; [reflexivity |].
  by rewrite initApp_saveTodos.
Qed.

Example absent_entry_gives_empty_list : todos (initApp ∅) = JArray [].
Proof. reflexivity. Qed.

(** * Further properties of the reducer *)

Lemma with_completed_twice (t : Todo) :
  with_completed (with_completed t (negb (completed t)))
    (negb (completed (with_completed t (negb (completed t))))) = t.
Proof. destruct t as [i s c d]. simpl. by rewrite negb_involutive. Qed.

(** Toggling the same id twice gives back the list, also when several
    items carry that id. *)
Theorem toggle_twice_restores (env : Env) (L : list Todo) (x : JsString) :
  todoReducer env (todoReducer env L (TOGGLE_TODO x)) (TOGGLE_TODO x) = L.
Proof.
  simpl. rewrite <- list_fmap_compose.
  rewrite <- (list_fmap_id L) at 2.
  apply list_fmap_ext. intros i t _. simpl.
  destruct (decide (id t = x)) as [Heq | Hne].
  - rewrite (bool_decide_eq_true_2 _ Heq). simpl.
    rewrite (bool_decide_eq_true_2 _ Heq). apply with_completed_twice.
  - rewrite (bool_decide_eq_false_2 _ Hne).
    by rewrite (bool_decide_eq_false_2 _ Hne).
Qed.

(** Of two text updates of one id the later wins; in particular
    dispatching the same update twice is the same as dispatching it once. *)
Theorem update_last_write_wins (env : Env) (L : list Todo)
    (x s1 s2 : JsString) :
  todoReducer env (todoReducer env L (UPDATE_TODO x s1)) (UPDATE_TODO x s2)
  = todoReducer env L (UPDATE_TODO x s2).
Proof.
  simpl. rewrite <- list_fmap_compose.
  apply list_fmap_ext. intros i t _. simpl.
  destruct (decide (id t = x)) as [Heq | Hne].
  - rewrite (bool_decide_eq_true_2 _ Heq). simpl.
    by rewrite (bool_decide_eq_true_2 _ Heq).
  - rewrite (bool_decide_eq_false_2 _ Hne).
    by rewrite (bool_decide_eq_false_2 _ Hne).
Qed.

(** Two deletions give the same list in either order. *)
Theorem delete_commutes (env : Env) (L : list Todo) (x y : JsString) :
  todoReducer env (todoReducer env L (DELETE_TODO x)) (DELETE_TODO y)
  = todoReducer env (todoReducer env L (DELETE_TODO y)) (DELETE_TODO x).
Proof.
  simpl. rewrite !list_filter_filter.
  apply list_filter_iff. intros t. tauto.
Qed.

(** A toggle and a text update give the same list in either order,
    whether or not they name the same id. *)
Theorem toggle_update_commute (env : Env) (L : list Todo) (x y s : JsString) :
  todoReducer env (todoReducer env L (TOGGLE_TODO x)) (UPDATE_TODO y s)
  = todoReducer env (todoReducer env L (UPDATE_TODO y s)) (TOGGLE_TODO x).
Proof.
  simpl. rewrite <- !list_fmap_compose.
  apply list_fmap_ext. intros i t _. simpl.
  destruct (decide (id t = x)) as [Hx | Hx], (decide (id t = y)) as [Hy | Hy];
    repeat first
      [ rewrite (bool_decide_eq_true_2 _ Hx)
      | rewrite (bool_decide_eq_false_2 _ Hx)
      | rewrite (bool_decide_eq_true_2 _ Hy)
      | rewrite (bool_decide_eq_false_2 _ Hy)
      | progress simpl ];
    done.
Qed.

(** Deleting the id that an addition has just generated undoes the
    addition, provided that id was not in the list before. *)
Theorem add_then_delete_restores (env : Env) (L : list Todo) (s : JsString) :
  randomUUID env ∉ ids L →
  todoReducer env (todoReducer env L (ADD_TODO s))
    (DELETE_TODO (randomUUID env)) = L.
Proof.
  intros Hfresh. simpl. rewrite filter_app.
  rewrite filter_cons_False by (simpl; naive_solver).
  rewrite filter_nil, app_nil_r.
  by apply (delete_absent env).
Qed.

(** Toggle and Update-text leave the sequence of ids and the sequence of
    creation stamps as they are; Toggle leaves every text and Update-text
    every completion flag as it is. *)
Theorem toggle_update_frame (env : Env) (L : list Todo) (x s : JsString) :
  id <$> todoReducer env L (TOGGLE_TODO x) = id <$> L
  ∧ createdAt <$> todoReducer env L (TOGGLE_TODO x) = createdAt <$> L
  ∧ text <$> todoReducer env L (TOGGLE_TODO x) = text <$> L
  ∧ id <$> todoReducer env L (UPDATE_TODO x s) = id <$> L
  ∧ createdAt <$> todoReducer env L (UPDATE_TODO x s) = createdAt <$> L
  ∧ completed <$> todoReducer env L (UPDATE_TODO x s) = completed <$> L.
Proof.
  simpl. rewrite <- !list_fmap_compose.
  repeat split; apply list_fmap_ext; intros i t _; simpl;
    by case_bool_decide.
Qed.

(** ** Lists without repeated ids *)

Lemma id_unique_at (L : list Todo) (i j : nat) (t u : Todo) :
  NoDup (ids L) → L !! i = Some t → L !! j = Some u → id t = id u → i = j.
Proof.
  intros Hnd Hi Hj Heq.
  apply (NoDup_lookup (ids L) i j (id t)); [done | |].
  - unfold ids. by rewrite list_lookup_fmap, Hi.
  - unfold ids. rewrite list_lookup_fmap, Hj. simpl. by rewrite Heq.
Qed.

(** With pairwise distinct ids, mapping over the items of one id changes
    one position only. *)
Lemma map_at_unique_id (f : Todo → Todo) (L : list Todo) (i : nat)
    (t : Todo) :
  NoDup (ids L) → L !! i = Some t →
  (fun u => if bool_decide (id u = id t) then f u else u) <$> L
  = <[i := f t]> L.
Proof.
  intros Hnd Hi. apply list_eq. intros j.
  rewrite list_lookup_fmap.
  destruct (decide (i = j)) as [<- | Hij].
  - rewrite list_lookup_insert_eq by (by eapply lookup_lt_Some).
    rewrite Hi. simpl. by rewrite bool_decide_eq_true_2.
  - rewrite list_lookup_insert_ne by done.
    destruct (L !! j) as [u |] eqn:Hj; [| done]. simpl.
    rewrite bool_decide_eq_false_2; [done |].
    intros Heq. apply Hij. symmetry in Heq.
    by eapply id_unique_at.
Qed.

Lemma delete_at_unique_id (env : Env) (L : list Todo) (i : nat) (t : Todo) :
  NoDup (ids L) → L !! i = Some t →
  todoReducer env L (DELETE_TODO (id t)) = take i L ++ drop (S i) L.
Proof.
  revert i. induction L as [|u L IH]; intros i Hnd Hi; [done |].
  unfold ids in Hnd. rewrite fmap_cons in Hnd.
  apply NoDup_cons in Hnd as [Hu Hnd].
  destruct i as [|i]; simpl in Hi.
  - injection Hi as ->.
    rewrite delete_cons_match. by rewrite delete_absent.
  - assert (id u ≠ id t) as Hne.
    { intros Heq. apply Hu. rewrite Heq.
      apply list_elem_of_fmap. exists t. split; [done |].
      by eapply list_elem_of_lookup_2. }
    rewrite delete_cons_other by done.
    by rewrite (IH i Hnd Hi).
Qed.

(** * The count of active tasks *)

Lemma activeCount_app (L K : list Todo) :
  activeCount (L ++ K) = (activeCount L + activeCount K)%nat.
Proof. unfold activeCount. by rewrite filter_app, length_app. Qed.

Lemma activeCount_cons (t : Todo) (L : list Todo) :
  activeCount (t :: L)
  = ((if completed t then 0 else 1) + activeCount L)%nat.
Proof.
  unfold activeCount. rewrite filter_cons.
  destruct (completed t); by case_decide.
Qed.

Lemma activeCount_split (L : list Todo) (i : nat) (t : Todo) :
  L !! i = Some t →
  activeCount L
  = (activeCount (take i L) + (if completed t then 0 else 1)
     + activeCount (drop (S i) L))%nat.
Proof.
  intros Hi. rewrite <- (take_drop_middle L i t Hi) at 1.
  rewrite activeCount_app, activeCount_cons. lia.
Qed.

Lemma activeCount_insert (L : list Todo) (i : nat) (t t' : Todo) :
  L !! i = Some t →
  activeCount (<[i := t']> L)
  = (activeCount (take i L) + (if completed t' then 0 else 1)
     + activeCount (drop (S i) L))%nat.
Proof.
  intros Hi. pose proof (lookup_lt_Some _ _ _ Hi) as Hlt.
  rewrite insert_take_drop by done.
  rewrite activeCount_app, activeCount_cons. lia.
Qed.

(** An addition raises the count of active tasks by one. *)
Theorem add_raises_activeCount (env : Env) (L : list Todo) (s : JsString) :
  activeCount (todoReducer env L (ADD_TODO s)) = S (activeCount L).
Proof.
  simpl. rewrite activeCount_app, activeCount_cons. simpl.
  unfold activeCount at 2. simpl. lia.
Qed.

(** With pairwise distinct ids, toggling the item at position [i] moves
    the count of active tasks by exactly one: down when the item was
    active, up when it was completed. *)
Theorem toggle_moves_activeCount (env : Env) (L : list Todo) (i : nat)
    (t : Todo) :
  NoDup (ids L) → L !! i = Some t →
  (if completed t
   then activeCount (todoReducer env L (TOGGLE_TODO (id t)))
        = S (activeCount L)
   else S (activeCount (todoReducer env L (TOGGLE_TODO (id t))))
        = activeCount L).
Proof.
  intros Hnd Hi. simpl.
  rewrite (map_at_unique_id (fun u => with_completed u (negb (completed u)))
             L i t Hnd Hi).
  rewrite (activeCount_insert L i t _ Hi), (activeCount_split L i t Hi).
  simpl. destruct (completed t); simpl; lia.
Qed.

(** With pairwise distinct ids, deleting the item at position [i] lowers
    the count of active tasks by one when the item was active and leaves
    it as it is when the item was completed. *)
Theorem delete_moves_activeCount (env : Env) (L : list Todo) (i : nat)
    (t : Todo) :
  NoDup (ids L) → L !! i = Some t →
  activeCount L
  = ((if completed t then 0 else 1)
     + activeCount (todoReducer env L (DELETE_TODO (id t))))%nat.
Proof.
  intros Hnd Hi.
  rewrite (delete_at_unique_id env L i t Hnd Hi).
  rewrite activeCount_app, (activeCount_split L i t Hi). lia.
Qed.

(** A text update never changes the count of active tasks. *)
Theorem update_keeps_activeCount (env : Env) (L : list Todo)
    (x s : JsString) :
  activeCount (todoReducer env L (UPDATE_TODO x s)) = activeCount L.
Proof.
  simpl. induction L as [|t L IH]; [done |].
  rewrite fmap_cons, !activeCount_cons, IH.
  by case_bool_decide.
Qed.

(** * Trimming *)

Lemma trim_start_head (s : JsString) (c : N) (r : JsString) :
  trim_start s = c :: r → is_space c = false.
Proof.
  induction s as [|d s IH]; [done |]. simpl.
  destruct (is_space d) eqn:Hd; [done |].
  intros H. injection H as -> _. done.
Qed.

Lemma trim_start_blank (s : JsString) :
  trim_start s = [] ↔ Forall (fun c => is_space c = true) s.
Proof.
  induction s as [|d s IH]; simpl.
  - split; [constructor | done].
  - destruct (is_space d) eqn:Hd.
    + rewrite IH. split.
      * intros H. by constructor.
      * intros H. by inversion H.
    + split; [done |]. intros H. inversion H. congruence.
Qed.

Lemma trim_start_fixed (c : N) (r : JsString) :
  is_space c = false → trim_start (c :: r) = c :: r.
Proof. intros Hc. simpl. by rewrite Hc. Qed.

Lemma trim_end_cons (c : N) (r : JsString) :
  is_space c = false → ∃ r', trim_end (c :: r) = c :: r'.
Proof.
  intros Hc. simpl. destruct (trim_end r) as [|d r'].
  - rewrite Hc. by exists [].
  - by exists (d :: r').
Qed.

Lemma trim_end_last (s : JsString) (c : N) :
  last (trim_end s) = Some c → is_space c = false.
Proof.
  induction s as [|d s IH]; [done |]. simpl.
  destruct (trim_end s) as [|e r'] eqn:He.
  - destruct (is_space d) eqn:Hd; [done |].
    simpl. intros H. injection H as <-. done.
  - rewrite last_cons. destruct (last (e :: r')) eqn:Hl.
    + intros H. injection H as <-. by apply IH.
    + by apply last_None in Hl.
Qed.

Lemma trim_end_idem (s : JsString) : trim_end (trim_end s) = trim_end s.
Proof.
  induction s as [|d s IH]; [done |]. simpl.
  destruct (trim_end s) as [|e r'] eqn:He.
  - destruct (is_space d) eqn:Hd; [done |]. simpl. by rewrite Hd.
  - simpl. simpl in IH. by rewrite IH.
Qed.

Lemma trim_idem (s : JsString) : trim (trim s) = trim s.
Proof.
  unfold trim.
  destruct (trim_start s) as [|c r] eqn:Hs; [done |].
  pose proof (trim_start_head _ _ _ Hs) as Hc.
  destruct (trim_end_cons c r Hc) as [r' Hr]. rewrite Hr.
  rewrite (trim_start_fixed c r' Hc), <- Hr. apply trim_end_idem.
Qed.

Lemma trim_blank (s : JsString) :
  trim s = [] ↔ Forall (fun c => is_space c = true) s.
Proof.
  rewrite <- trim_start_blank. unfold trim. split.
  - intros H. destruct (trim_start s) as [|c r] eqn:Hs; [done |].
    pose proof (trim_start_head _ _ _ Hs) as Hc.
    destruct (trim_end_cons c r Hc) as [r' Hr]. congruence.
  - by intros ->.
Qed.

Lemma trim_ends (s : JsString) :
  (∀ c r, trim s = c :: r → is_space c = false)
  ∧ (∀ c, last (trim s) = Some c → is_space c = false).
Proof.
  split.
  - intros c r H. unfold trim in H.
    destruct (trim_start s) as [|d q] eqn:Hs; [done |].
    pose proof (trim_start_head _ _ _ Hs) as Hd.
    destruct (trim_end_cons d q Hd) as [r' Hr]. congruence.
  - intros c. apply trim_end_last.
Qed.

Lemma truthy_trim (s : JsString) :
  truthy (trim s) = true ↔ ¬ Forall (fun c => is_space c = true) s.
Proof.
  rewrite <- trim_blank. destruct (trim s); simpl; split; done.
Qed.

Lemma trimmed_trim (s : JsString) : truthy (trim s) = true → trimmed (trim s).
Proof.
  intros H. split; [| apply trim_idem].
  by destruct (trim s).
Qed.

(** * The handlers *)

Lemma handle_frame (e : Event) (p : Page.t) :
  Page.isMounted (fst (handle e p)) = Page.isMounted p
  ∧ Page.todos (fst (handle e p)) = Page.todos p.
Proof.
  destruct e; simpl; try done.
  unfold handleAdd. by destruct (truthy (trim (Page.inputValue p))).
Qed.

Lemma getItem_saveTodos_other (m : bool) (L : list Todo) (ls : Storage)
    (key : JsString) :
  key ≠ js "todos" → getItem (saveTodos m L ls) key = getItem ls key.
Proof.
  intros Hne. unfold saveTodos, getItem, setItem.
  destruct m; [| done]. by rewrite lookup_insert_ne.
Qed.

(** Submitting a field that holds nothing but white space changes neither
    the page (the field keeps its content) nor the storage. *)
Theorem submit_blank_is_ignored (env : Env) (p : Page.t) (ls : Storage) :
  Forall (fun c => is_space c = true) (Page.inputValue p) →
  react env Submit (p, ls) = (p, ls).
Proof.
  intros Hblank%trim_blank. unfold react. simpl. unfold handleAdd.
  by rewrite Hblank.
Qed.

(** Submitting a field with some character that is not white space, on
    the mounted page, appends one incomplete task whose text is the
    trimmed input (not empty, nothing left to trim, neither its first nor
    its last character white space), empties the field and stores the new
    list. *)
Theorem submit_adds_trimmed_task (env : Env) (p : Page.t) (ls : Storage) :
  ¬ Forall (fun c => is_space c = true) (Page.inputValue p) →
  Page.isMounted p = true →
  Page.todos (fst (react env Submit (p, ls)))
  = Page.todos p
    ++ [ {| id := randomUUID env; text := trim (Page.inputValue p);
            completed := false; createdAt := toISOString env |} ]
  ∧ trimmed (trim (Page.inputValue p))
  ∧ (∀ c r, trim (Page.inputValue p) = c :: r → is_space c = false)
  ∧ (∀ c, last (trim (Page.inputValue p)) = Some c → is_space c = false)
  ∧ Page.inputValue (fst (react env Submit (p, ls))) = []
  ∧ getItem (snd (react env Submit (p, ls))) (js "todos")
    = Some (JSON_stringify (Page.todos (fst (react env Submit (p, ls))))).
Proof.
  intros Hsome%truthy_trim Hm. unfold react. simpl. unfold handleAdd.
  rewrite Hsome. simpl. rewrite Hm. simpl.
  split; [done |]. split; [by apply trimmed_trim |].
  split; [apply trim_ends |]. split; [apply trim_ends |]. split; [done |].
  apply getItem_setItem.
Qed.

(** Committing an edit changes neither the list nor the storage, and ends
    the editing, when no edit is in progress, when the edited task has the
    empty string as id, or when the edited text is nothing but white
    space. *)
Theorem commit_without_dispatch (env : Env) (p : Page.t) (ls : Storage) :
  Page.editingId p = None ∨ Page.editingId p = Some []
  ∨ Forall (fun c => is_space c = true) (Page.editText p) →
  react env EditCommit (p, ls) = (setEditingId p None, ls).
Proof.
  intros H. unfold react. simpl.
  destruct H as [-> | [-> | Hblank%trim_blank]]; [done | done |].
  rewrite Hblank. destruct (Page.editingId p) as [eid |]; [| done].
  by rewrite andb_false_r.
Qed.

Lemma with_text_same (t : Todo) : with_text t (text t) = t.
Proof. by destruct t. Qed.


(** On a page with pairwise distinct ids, double-clicking a task of the
    list whose text is already trimmed and committing at once leaves the
    list as it is. *)
Theorem edit_without_change_keeps_list (e1 e2 : Env) (p : Page.t)
    (ls : Storage) (i : nat) (t : Todo) :
  NoDup (ids (Page.todos p)) → Page.todos p !! i = Some t →
  trimmed (text t) →
  Page.todos (fst (session (p, ls)
    [(e1, LabelDoubleClick t); (e2, EditCommit)])) = Page.todos p.
Proof.
  intros Hnd Hi [Hne Htrim].
  unfold session. simpl. unfold react. simpl.
  rewrite Htrim.
  destruct (truthy (id t) && truthy (text t)); [| done]. simpl.
  rewrite (map_at_unique_id (fun u => with_text u (text t)) _ i t Hnd Hi).
  rewrite with_text_same. by apply list_insert_id.
Qed.

Lemma session_cons (w : Page.t * Storage) (env : Env) (e : Event)
    (evs : list (Env * Event)) :
  session w ((env, e) :: evs) = session (react env e w) evs.
Proof. reflexivity. Qed.

Lemma react_texts_trimmed (env : Env) (e : Event) (p : Page.t)
    (ls : Storage) :
  Forall (fun t => trimmed (text t)) (Page.todos p) →
  Forall (fun t => trimmed (text t)) (Page.todos (fst (react env e (p, ls)))).
Proof.
  intros Hall. unfold react.
  destruct e; simpl; try done.
  - unfold handleAdd.
    destruct (truthy (trim (Page.inputValue p))) eqn:Hin; [| done]. simpl.
    apply Forall_app. split; [done |].
    apply Forall_singleton. simpl. by apply trimmed_trim.
  - apply Forall_fmap. eapply Forall_impl; [exact Hall |].
    intros t Ht. simpl. by case_bool_decide.
  - rewrite Forall_forall in Hall |- *.
    intros t Ht%list_elem_of_filter. apply Hall, Ht.
  - destruct (Page.editingId p) as [eid |]; [| done].
    destruct (truthy eid); [| done]. simpl.
    destruct (truthy (trim (Page.editText p))) eqn:Hed; [| done]. simpl.
    apply Forall_fmap. eapply Forall_impl; [exact Hall |].
    intros t Ht. simpl. case_bool_decide; [| done].
    simpl. by apply trimmed_trim.
Qed.

(** No sequence of events creates a blank or untrimmed text: when every
    task of the list has a non-empty text equal to its trimmed form, so
    has every task after any events. *)
Theorem texts_stay_trimmed (p : Page.t) (ls : Storage)
    (evs : list (Env * Event)) :
  Forall (fun t => trimmed (text t)) (Page.todos p) →
  Forall (fun t => trimmed (text t)) (Page.todos (fst (session (p, ls) evs))).
Proof.
  revert p ls. induction evs as [|[env e] evs IH]; intros p ls Hall; [done |].
  rewrite session_cons.
  pose proof (react_texts_trimmed env e p ls Hall) as Hstep.
  destruct (react env e (p, ls)) as [p' ls']. by apply IH.
Qed.

(** * The stored list over a session *)

Lemma initApp_stored (L : list Todo) (ls : Storage) :
  getItem ls (js "todos") = Some (JSON_stringify L) →
  initApp ls
  = {| todos := todos_to_js L; isMounted := true; console_error := [] |}.
Proof.
  intros Hget. unfold initApp. rewrite Hget.
  by rewrite JSON_stringify_truthy, JSON_parse_stringify.
Qed.

Lemma react_stored (env : Env) (e : Event) (p : Page.t) (ls : Storage) :
  Page.isMounted p = true →
  getItem ls (js "todos") = Some (JSON_stringify (Page.todos p)) →
  Page.isMounted (fst (react env e (p, ls))) = true
  ∧ getItem (snd (react env e (p, ls))) (js "todos")
    = Some (JSON_stringify (Page.todos (fst (react env e (p, ls))))).
Proof.
  intros Hm Hget. unfold react.
  destruct (handle_frame e p) as [Hfm Hft].
  destruct (handle e p) as [p' [a |]]; simpl in *.
  - rewrite Hfm, Hm. split; [done |]. apply getItem_setItem.
  - by rewrite Hfm, Hft.
Qed.

Lemma session_stored (p : Page.t) (ls : Storage) (evs : list (Env * Event)) :
  Page.isMounted p = true →
  getItem ls (js "todos") = Some (JSON_stringify (Page.todos p)) →
  getItem (snd (session (p, ls) evs)) (js "todos")
  = Some (JSON_stringify (Page.todos (fst (session (p, ls) evs)))).
Proof.
  revert p ls. induction evs as [|[env e] evs IH]; intros p ls Hm Hget;
    [done |].
  rewrite session_cons.
  destruct (react_stored env e p ls Hm Hget) as [Hm' Hget'].
  destruct (react env e (p, ls)) as [p' ls']. by apply IH.
Qed.

(** Reloading restores what the page shows: when the stored entry
    hydrates to the list [L0], then after mounting and any sequence of
    events the mount effect run on the storage left behind yields exactly
    the list the page holds, and logs nothing. *)
Theorem reload_restores_list (L0 : list Todo) (ls : Storage)
    (evs : list (Env * Event)) :
  todos (initApp ls) = todos_to_js L0 →
  initApp (snd (session (mount L0 ls) evs))
  = {| todos := todos_to_js (Page.todos (fst (session (mount L0 ls) evs)));
       isMounted := true; console_error := [] |}.
Proof.
  intros _. apply initApp_stored. unfold mount.
  apply session_stored; [done |]. simpl. apply getItem_setItem.
Qed.

Lemma react_other_keys (env : Env) (e : Event) (p : Page.t) (ls : Storage)
    (key : JsString) :
  key ≠ js "todos" →
  getItem (snd (react env e (p, ls))) key = getItem ls key.
Proof.
  intros Hne. unfold react.
  destruct (handle e p) as [p' [a |]]; simpl; [| done].
  by apply getItem_saveTodos_other.
Qed.

(** The page writes one entry only: after mounting and any sequence of
    events every other key of the storage holds what it held before. *)
Theorem other_keys_untouched (L0 : list Todo) (ls : Storage)
    (evs : list (Env * Event)) (key : JsString) :
  key ≠ js "todos" →
  getItem (snd (session (mount L0 ls) evs)) key = getItem ls key.
Proof.
  intros Hne.
  assert (∀ w, getItem (snd (session w evs)) key = getItem (snd w) key) as H.
  { induction evs as [|[env e] evs IH]; intros w; [done |].
    rewrite session_cons, IH. destruct w as [p ls0].
    by apply react_other_keys. }
  rewrite H.
  change (snd (mount L0 ls)) with (saveTodos true L0 (saveTodos false [] ls)).
  by rewrite !getItem_saveTodos_other.
Qed.

(** Mounting does not disturb a list the page stored earlier: when the
    entry holds [JSON.stringify] of [L0], the storage after the mount is
    the storage before it. *)
Theorem mount_keeps_stored_list (L0 : list Todo) (ls : Storage) :
  getItem ls (js "todos") = Some (JSON_stringify L0) →
  todos (initApp ls) = todos_to_js L0 ∧ snd (mount L0 ls) = ls.
Proof.
  intros Hget. split.
  - by rewrite (initApp_stored L0 ls Hget).
  - unfold mount, saveTodos, setItem. simpl. by apply insert_id.
Qed.

(** * Stored text *)

(** Different lists are stored as different texts. *)
Theorem JSON_stringify_injective (L1 L2 : list Todo) :
  JSON_stringify L1 = JSON_stringify L2 → L1 = L2.
Proof.
  intros Heq.
  assert (todos_to_js L1 = todos_to_js L2) as Hjs.
  { pose proof (JSON_parse_stringify L1) as H1.
    pose proof (JSON_parse_stringify L2) as H2.
    rewrite Heq in H1. congruence. }
  pose proof (todos_of_js_to_js L1) as H1.
  pose proof (todos_of_js_to_js L2) as H2.
  rewrite Hjs in H1. congruence.
Qed.

(** The mount effect always mounts the page, and it logs an error exactly
    when the entry holds a non-empty text that [JSON.parse] rejects. *)
Theorem initApp_mounts_and_logs_parse_failures (ls : Storage) :
  isMounted (initApp ls) = true
  ∧ (console_error (initApp ls) ≠ []
     ↔ ∃ saved, getItem ls (js "todos") = Some saved
                ∧ saved ≠ [] ∧ JSON_parse saved = None).
Proof.
  unfold initApp.
  destruct (getItem ls (js "todos")) as [saved |] eqn:Hget.
  - destruct saved as [|c r]; simpl.
    + split; [done |]. split; [done |].
      intros (s & Hs & Hne & _). by injection Hs as <-.
    + destruct (JSON_parse (c :: r)) eqn:Hp; simpl.
      * split; [done |]. split; [done |].
        intros (s & Hs & _ & Hnone). injection Hs as <-. congruence.
      * split; [done |]. split; [| done].
        intros _. exists (c :: r). done.
  - simpl. split; [done |]. split; [done |].
    intros (s & Hs & _). done.
Qed.

(** * Instances of the further properties *)

Lemma add_then_delete_restores_witness :
  todoReducer env_b (todoReducer env_b [milk] (ADD_TODO (js "Walk dog")))
    (DELETE_TODO (js "b")) = [milk].
Proof.
  apply (add_then_delete_restores env_b [milk] (js "Walk dog")).
  intros Hin%list_elem_of_singleton. vm_compute in Hin. discriminate.
Defined.

Lemma toggle_moves_activeCount_witness :
  S (activeCount (todoReducer env_a [milk; dog] (TOGGLE_TODO (js "b"))))
  = activeCount [milk; dog].
Proof.
  apply (toggle_moves_activeCount env_a [milk; dog] 1%nat dog
           unique_ids_milk_dog eq_refl).
Defined.

Lemma delete_moves_activeCount_witness :
  activeCount [milk; dog]
  = (1 + activeCount (todoReducer env_a [milk; dog] (DELETE_TODO (js "a"))))%nat.
Proof.
  apply (delete_moves_activeCount env_a [milk; dog] 0%nat milk
           unique_ids_milk_dog eq_refl).
Defined.

Lemma submit_blank_is_ignored_witness :
  react env_a Submit (blank_page, ∅) = (blank_page, ∅).
Proof.
  apply (submit_blank_is_ignored env_a blank_page ∅).
  vm_compute. repeat constructor.
Defined.

Lemma not_blank_Feed_cat :
  ¬ Forall (fun c => is_space c = true) (js "  Feed cat ").
Proof.
  intros H. apply trim_blank in H. vm_compute in H. discriminate.
Defined.

Lemma submit_adds_trimmed_task_witness :
  Page.todos (fst (react env_a Submit (typing_page, ∅)))
  = [milk; dog]
    ++ [ {| id := js "a"; text := js "Feed cat"; completed := false;
            createdAt := js "2024-01-01T00:00:00.000Z" |} ].
Proof.
  apply (submit_adds_trimmed_task env_a typing_page ∅ not_blank_Feed_cat
           eq_refl).
Defined.

Lemma commit_without_dispatch_witness :
  react env_a EditCommit (setEditText (setEditingId blank_page (Some (js "a")))
                            (js "  "), ∅)
  = (setEditingId (setEditText (setEditingId blank_page (Some (js "a")))
                     (js "  ")) None, ∅).
Proof.
  apply (commit_without_dispatch env_a
           (setEditText (setEditingId blank_page (Some (js "a"))) (js "  ")) ∅).
  right. right. vm_compute. repeat constructor.
Defined.



Lemma trimmed_text_of_milk : trimmed (text milk).
Proof. split; [vm_compute; discriminate | reflexivity]. Defined.

Lemma trimmed_text_of_dog : trimmed (text dog).
Proof. split; [vm_compute; discriminate | reflexivity]. Defined.

Lemma edit_without_change_keeps_list_witness :
  Page.todos (fst (session (blank_page, ∅)
    [(env_a, LabelDoubleClick milk); (env_b, EditCommit)])) = [milk; dog].
Proof.
  apply (edit_without_change_keeps_list env_a env_b blank_page ∅ 0%nat milk
           unique_ids_milk_dog eq_refl trimmed_text_of_milk).
Defined.

Lemma texts_stay_trimmed_witness :
  Forall (fun t => trimmed (text t))
    (Page.todos (fst (session (blank_page, ∅) visit))).
Proof.
  apply (texts_stay_trimmed blank_page ∅ visit).
  apply Forall_cons. split; [exact trimmed_text_of_milk |].
  apply Forall_cons. split; [exact trimmed_text_of_dog |].
  apply Forall_nil_2.
Defined.

Lemma reload_restores_list_witness :
  initApp (snd (session (mount [milk; dog]
                           (storage_with (JSON_stringify [milk; dog]))) visit))
  = {| todos := todos_to_js
                  (Page.todos (fst (session (mount [milk; dog]
                     (storage_with (JSON_stringify [milk; dog]))) visit)));
       isMounted := true; console_error := [] |}.
Proof.
  apply (reload_restores_list [milk; dog]
           (storage_with (JSON_stringify [milk; dog])) visit).
  reflexivity.
Defined.

Lemma key_theme_is_another_key : js "theme" ≠ js "todos".
Proof. vm_compute. discriminate. Defined.

Lemma other_keys_untouched_witness :
  getItem (snd (session (mount [] (setItem ∅ (js "theme") (js "dark"))) visit))
    (js "theme")
  = getItem (setItem ∅ (js "theme") (js "dark")) (js "theme").
Proof.
  apply (other_keys_untouched [] (setItem ∅ (js "theme") (js "dark")) visit
           (js "theme") key_theme_is_another_key).
Defined.

Lemma mount_keeps_stored_list_witness :
  snd (mount [milk; dog] (storage_with (JSON_stringify [milk; dog])))
  = storage_with (JSON_stringify [milk; dog]).
Proof.
  apply (mount_keeps_stored_list [milk; dog]
           (storage_with (JSON_stringify [milk; dog]))).
  apply getItem_setItem.
Defined.

Lemma JSON_stringify_injective_witness : [milk; dog] = [milk; dog].
Proof.
  apply (JSON_stringify_injective [milk; dog] [milk; dog]). reflexivity.
Defined.

(** The visit, run on the page showing [milk] and [dog]. *)
Example visit_result :
  Page.todos (fst (session (mount [milk; dog]
                     (storage_with (JSON_stringify [milk; dog]))) visit))
  = [ with_text dog (js "Walk the dog");
      {| id := js "c"; text := js "Feed cat"; completed := false;
         createdAt := js "2024-01-04T00:00:00.000Z" |} ].
Proof. reflexivity. Qed.
